(** * goenrich.enrich: background propagation, hypergeometric test and
      multiple-testing correction

    A shallow embedding of [src/goenrich/enrich.py].  The ontology graph is
    a networkx [DiGraph]: a dictionary of per-node attribute dictionaries
    ([G.node]), a successor dictionary ([G.adj]) and a graph-level
    dictionary ([G.graph]).  The functions mutate the graph in place and may
    raise; here each of them takes the graph and returns the graph it leaves
    behind together with either the exception raised or the value returned.

    A Python float is modelled by the rational it holds, an infinity or
    [NaN].  The product of line 116 rounds to the nearest double as the
    machine does; the value of the library's [hypergeom.sf] is taken
    exact. *)

From stdpp Require Import gmap strings list fin_maps.
From Stdlib Require Import QArith.

Local Open Scope string_scope.
Local Open Scope list_scope.
Local Open Scope Z_scope.

(** ** Values *)

(** A Python float: a rational, not-a-number, or an infinity. *)
Inductive float : Type :=
  | Fin (r : Q)
  | NaN
  | Inf (negative : bool).

(** [floor (log2 (num / den))]. *)
Definition floor_log2 (num den : positive) : Z :=
  let e := Z.log2 (Zpos num) - Z.log2 (Zpos den) in
  let below :=
    if 0 <=? e then Zpos den * 2 ^ e <=? Zpos num
    else Zpos den <=? Zpos num * 2 ^ (- e) in
  if below then e else e - 1.

(** [N / D] rounded to the nearest integer, a tie to the even one. *)
Definition round_half_even (N D : Z) : Z :=
  let q := N / D in
  match 2 * (N mod D) ?= D with
  | Lt => q
  | Gt => q + 1
  | Eq => if Z.even q then q else q + 1
  end.

(** The double nearest to [num / den], ties to even: a significand of 53
    bits, exponents from -1022 (below, the spacing of the subnormals) to
    1023 (above, overflow to infinity). *)
Definition round64_pos (num den : positive) : float :=
  let e := floor_log2 num den in
  let u := Z.max e (-1022) - 52 in
  if 0 <=? u then
    let v := round_half_even (Zpos num) (Zpos den * 2 ^ u) * 2 ^ u in
    if 2 ^ 1024 <=? v then Inf false else Fin (v # 1)
  else
    Fin (Qred (round_half_even (Zpos num * 2 ^ (- u)) (Zpos den)
               # Z.to_pos (2 ^ (- u)))).

Definition fneg (a : float) : float :=
  match a with
  | Fin r => Fin (- r)
  | NaN => NaN
  | Inf negative => Inf (negb negative)
  end.

(** The double a real number is rounded to: the value of a literal such as
    [0.05], of an int converted to a float, of an exact product. *)
Definition round64 (r : Q) : float :=
  match Qnum r with
  | Z0 => Fin 0
  | Zpos num => round64_pos num (Qden r)
  | Zneg num => fneg (round64_pos num (Qden r))
  end.

(** [a * b] on floats. *)
Definition fmul (a b : float) : float :=
  match a, b with
  | NaN, _ | _, NaN => NaN
  | Fin r, Fin s => round64 (r * s)
  | Inf negative, Fin s | Fin s, Inf negative =>
      match Qnum s with
      | Z0 => NaN
      | Zpos _ => Inf negative
      | Zneg _ => Inf (negb negative)
      end
  | Inf na, Inf nb => Inf (xorb na nb)
  end.

(** [a * k] on a float and an int: the int is converted to a float and the
    product rounded.  A product by 1 is its operand, as for every double.
    ([k] is the length of a dictionary here, far inside the range of a
    double.) *)
Definition fmul_int (a : float) (k : Z) : float :=
  if k =? 1 then a else fmul a (round64 (inject_Z k)).

(** [a < b] on floats: any comparison with [NaN] is [False]. *)
Definition flt (a b : float) : bool :=
  match a, b with
  | Fin r, Fin s => match Qcompare r s with Lt => true | _ => false end
  | Fin _, Inf negative => negb negative
  | Inf negative, Fin _ => negative
  | Inf na, Inf nb => na && negb nb
  | _, _ => false
  end.

(** The exceptions the module can raise. *)
Inductive exn : Type :=
  | KeyError (key : string)
  | ValueError (msg : string)
  | NetworkXError (msg : string).

(** Outcome of a call: the exception raised, or the value returned. *)
Definition result (A : Type) : Type := exn + A.
Abbreviation Ok a := (inr a : result _).
Abbreviation Raise e := (inl e : result _).

(** ** The graph *)

(** The attribute dictionary of a node.  A key that is absent from the
    dictionary is [None]. *)
Record Node : Type := mkNode {
  attr_namespace : option string;
  attr_background : option (gset string);
  attr_M : option Z;
  attr_query : option (gset string);
  attr_n : option Z;
  attr_N : option Z;
  attr_hits : option (gset string);
  attr_x : option Z;
  attr_p : option float;
  attr_q : option float;
  attr_significant : option bool
}.

Record Graph : Type := mkGraph {
  node : gmap string Node;             (* G.node *)
  adj : gmap string (list string);     (* G.adj: successors, child -> parents *)
  roots : option (gmap string string); (* G.graph['roots'] *)
  mtc_method : option string;          (* G.graph['multiple-testing-correction'] *)
  mtc_alpha : option float             (* G.graph['alpha'] *)
}.

Definition set_node (G : Graph) (i : string) (nd : Node) : Graph :=
  {| node := <[i := nd]> (node G); adj := adj G; roots := roots G;
     mtc_method := mtc_method G; mtc_alpha := mtc_alpha G |}.

Definition with_nodes (G : Graph) (m : gmap string Node) : Graph :=
  {| node := m; adj := adj G; roots := roots G;
     mtc_method := mtc_method G; mtc_alpha := mtc_alpha G |}.

(** [G[v]]: the successors of [v]. *)
Definition successors (G : Graph) (v : string) : list string :=
  default [] (adj G !! v).

(** ** scipy.stats.hypergeom.sf

    The library's survival function, [sf(k, M, n, N) = 1 - cdf(k)]: the
    probability that a hypergeometric variable (population [M], [n]
    successes in the population, [N] draws) is strictly greater than [k].
    Parameters outside [0 <= n <= M], [0 <= N <= M], [0 < M] give [nan]. *)

Fixpoint fact (k : nat) : Z :=
  match k with
  | O => 1
  | S k' => Z.of_nat k * fact k'
  end.

Definition binom (a b : Z) : Z :=
  if (0 <=? b) && (b <=? a)
  then fact (Z.to_nat a) / (fact (Z.to_nat b) * fact (Z.to_nat (a - b)))
  else 0.

(** Probability mass at [j], as a fraction. *)
Definition hypergeom_pmf (j M n N : Z) : Q :=
  Qmake (binom n j * binom (M - n) (N - j)) 1 / Qmake (binom M N) 1.

(** [sum_{lo <= j < lo + len} pmf(j)]. *)
Fixpoint pmf_sum (lo : Z) (len : nat) (M n N : Z) : Q :=
  match len with
  | O => 0
  | S len' => hypergeom_pmf lo M n N + pmf_sum (lo + 1) len' M n N
  end.

(** [P(X >= lo)]: the mass of every support point from [lo] upwards. *)
Definition upper_tail (lo M n N : Z) : Q :=
  let lo' := Z.max lo 0 in
  Qred (pmf_sum lo' (Z.to_nat (Z.min n N + 1 - lo')) M n N).

Definition hypergeom_valid (M n N : Z) : bool :=
  (0 <? M) && (0 <=? n) && (0 <=? N) && (n <=? M) && (N <=? M).

Definition hypergeom_sf (k M n N : Z) : float :=
  if hypergeom_valid M n N then Fin (upper_tail (k + 1) M n N) else NaN.

(** ** calculate_pvalues *)

(** The inner [for attr in [...]: if attr in node: del node[attr]]. *)
Definition reset_query (nd : Node) : Node :=
  {| attr_namespace := attr_namespace nd;
     attr_background := attr_background nd;
     attr_M := attr_M nd;
     attr_query := None; attr_n := None; attr_N := None; attr_hits := None;
     attr_x := None; attr_p := None; attr_q := None;
     attr_significant := None |}.

Definition set_n (nd : Node) (n : Z) : Node :=
  {| attr_namespace := attr_namespace nd;
     attr_background := attr_background nd;
     attr_M := attr_M nd;
     attr_query := attr_query nd; attr_n := Some n; attr_N := attr_N nd;
     attr_hits := attr_hits nd; attr_x := attr_x nd; attr_p := attr_p nd;
     attr_q := attr_q nd; attr_significant := attr_significant nd |}.

Definition set_hits (nd : Node) (query_set : gset string) (N : Z)
    (hits : gset string) (x : Z) : Node :=
  {| attr_namespace := attr_namespace nd;
     attr_background := attr_background nd;
     attr_M := attr_M nd;
     attr_query := Some query_set; attr_n := attr_n nd; attr_N := Some N;
     attr_hits := Some hits; attr_x := Some x; attr_p := attr_p nd;
     attr_q := attr_q nd; attr_significant := attr_significant nd |}.

Definition set_p (nd : Node) (p : float) : Node :=
  {| attr_namespace := attr_namespace nd;
     attr_background := attr_background nd;
     attr_M := attr_M nd;
     attr_query := attr_query nd; attr_n := attr_n nd; attr_N := attr_N nd;
     attr_hits := attr_hits nd; attr_x := attr_x nd; attr_p := Some p;
     attr_q := attr_q nd; attr_significant := attr_significant nd |}.

(** The size filter of line 85, a chained comparison:
    [max_category_size < n < min_category_size]. *)
Definition size_skip (n min_category_size max_category_size : Z) : bool :=
  (max_category_size <? n) && (n <? min_category_size).

(** The body of the loop over the nodes, for one node: the attribute
    dictionary it leaves, and either an exception or the p-value to record
    ([None] after a [continue]). *)
Definition pvalue_node (query_set : gset string) (N : Z)
    (min_hit_size min_category_size max_category_size : Z)
    (nd0 : Node) : Node * result (option float) :=
  let nd := reset_query nd0 in
  let background := default ∅ (attr_background nd) in
  let n := Z.of_nat (size background) in
  if size_skip n min_category_size max_category_size then (nd, Ok None)
  else
    let nd := set_n nd n in
    let hits := query_set ∩ background in
    let x := Z.of_nat (size hits) in
    if x <? min_hit_size then (nd, Ok None)
    else
      let nd := set_hits nd query_set N hits x in
      match attr_M nd, attr_n nd with
      | Some M, Some n =>
          let p := hypergeom_sf x M n N in
          (set_p nd p, Ok (Some p))
      | None, _ => (nd, Raise (KeyError "M"))
      | _, None => (nd, Raise (KeyError "n"))
      end.

(** The loop [for i in G] over the identifiers [ks], threading the graph
    and the dictionary [pvalues]. *)
Fixpoint pvalues_loop (query_set : gset string) (N : Z)
    (min_hit_size min_category_size max_category_size : Z)
    (ks : list string) (G : Graph) (pvalues : gmap string float)
    : Graph * result (gmap string float) :=
  match ks with
  | [] => (G, Ok pvalues)
  | i :: ks' =>
      match node G !! i with
      | None => (G, Raise (KeyError i))
      | Some nd0 =>
          let '(nd, r) := pvalue_node query_set N min_hit_size
                            min_category_size max_category_size nd0 in
          let G' := set_node G i nd in
          match r with
          | inl e => (G', Raise e)
          | inr None =>
              pvalues_loop query_set N min_hit_size min_category_size
                max_category_size ks' G' pvalues
          | inr (Some p) =>
              pvalues_loop query_set N min_hit_size min_category_size
                max_category_size ks' G' (<[i := p]> pvalues)
          end
      end
  end.

Definition calculate_pvalues (G : Graph) (query : list string)
    (min_hit_size min_category_size max_category_size : Z)
    : Graph * result (gmap string float) :=
  let query_set : gset string := list_to_set query in
  let N := Z.of_nat (size query_set) in
  pvalues_loop query_set N min_hit_size min_category_size max_category_size
    (map_to_list (node G)).*1 G ∅.

(** The keyword defaults of [calculate_pvalues]. *)
Definition default_min_hit_size : Z := 2.
Definition default_min_category_size : Z := 3.
Definition default_max_category_size : Z := 500.

(** ** networkx.all_simple_paths

    The library's generator of the simple paths from [source] to [target],
    a depth-first search that never extends a path through a node already
    on it and stops at paths of [cutoff = len(G) - 1] edges.  It reads only
    the successor dictionary, which [set_background] never changes, so the
    paths are listed at the call. *)
Fixpoint simple_paths_dfs (G : Graph) (target : string) (cutoff : nat)
    (visited : list string) (v : string) : list (list string) :=
  match cutoff with
  | O => []
  | S cutoff' =>
      child ← successors G v;
      if decide (child = target) then [visited ++ [target]]
      else if decide (child ∈ visited) then []
      else simple_paths_dfs G target cutoff' (visited ++ [child]) child
  end.

Definition all_simple_paths (G : Graph) (source target : string)
    : result (list (list string)) :=
  match node G !! source, node G !! target with
  | None, _ => Raise (NetworkXError "source node not in graph")
  | _, None => Raise (NetworkXError "target node not in graph")
  | Some _, Some _ =>
      Ok (simple_paths_dfs G target (size (node G) - 1)%nat [source] source)
  end.

(** ** set_background *)

(** A pandas DataFrame: its columns by name.  All values are strings. *)
Abbreviation DataFrame := (gmap string (list string)).

(** [df.groupby(key)[val]]: the groups in ascending order of their key,
    each with the values of its rows in row order. *)
Fixpoint group_insert (k e : string) (gs : list (string * list string))
    : list (string * list string) :=
  match gs with
  | [] => [(k, [e])]
  | (k', es) :: gs' =>
      match String.compare k k' with
      | Eq => (k', es ++ [e]) :: gs'
      | Lt => (k, [e]) :: gs
      | Gt => (k', es) :: group_insert k e gs'
      end
  end.

Definition groupby (keys vals : list string) : list (string * list string) :=
  foldl (fun gs kv => group_insert kv.1 kv.2 gs) [] (zip keys vals).

Definition set_bg (nd : Node) (b : gset string) : Node :=
  {| attr_namespace := attr_namespace nd;
     attr_background := Some b;
     attr_M := attr_M nd;
     attr_query := attr_query nd; attr_n := attr_n nd; attr_N := attr_N nd;
     attr_hits := attr_hits nd; attr_x := attr_x nd; attr_p := attr_p nd;
     attr_q := attr_q nd; attr_significant := attr_significant nd |}.

(** Lines 50-52: [node['background'] = set([]); node['M'] = M]. *)
Definition reset_background (M : Z) (nd : Node) : Node :=
  {| attr_namespace := attr_namespace nd;
     attr_background := Some ∅;
     attr_M := Some M;
     attr_query := attr_query nd; attr_n := attr_n nd; attr_N := attr_N nd;
     attr_hits := attr_hits nd; attr_x := attr_x nd; attr_p := attr_p nd;
     attr_q := attr_q nd; attr_significant := attr_significant nd |}.

(** Lines 59-61, the loop over the nodes of one path. *)
Fixpoint path_loop (entries : list string) (path : list string) (G : Graph)
    : Graph * result unit :=
  match path with
  | [] => (G, Ok tt)
  | n :: path' =>
      match node G !! n with
      | None => (G, Raise (KeyError n))
      | Some nd =>
          match attr_background nd with
          | None => (G, Raise (KeyError "background"))
          | Some b =>
              path_loop entries path'
                (set_node G n (set_bg nd (b ∪ list_to_set entries)))
          end
      end
  end.

(** Line 58, the loop over the paths. *)
Fixpoint paths_loop (entries : list string) (paths : list (list string))
    (G : Graph) : Graph * result unit :=
  match paths with
  | [] => (G, Ok tt)
  | path :: paths' =>
      match path_loop entries path G with
      | (G', inl e) => (G', Raise e)
      | (G', inr _) => paths_loop entries paths' G'
      end
  end.

(** Lines 56-58: the namespace of [term], the root of that namespace and
    the paths from [term] to it. *)
Definition term_paths (G : Graph) (term : string)
    : result (list (list string)) :=
  match node G !! term with
  | None => Raise (KeyError term)
  | Some nd =>
      match attr_namespace nd with
      | None => Raise (KeyError "namespace")
      | Some namespace =>
          match roots G with
          | None => Raise (KeyError "roots")
          | Some rs =>
              match rs !! namespace with
              | None => Raise (KeyError namespace)
              | Some root => all_simple_paths G term root
              end
          end
      end
  end.

(** The body of the loop over the groups, for one group. *)
Definition group_step (G : Graph) (term : string) (entries : list string)
    : Graph * result unit :=
  match term_paths G term with
  | inl e => (G, Raise e)
  | inr paths => paths_loop entries paths G
  end.

(** Line 55, the loop over the groups. *)
Fixpoint groups_loop (groups : list (string * list string)) (G : Graph)
    : Graph * result unit :=
  match groups with
  | [] => (G, Ok tt)
  | (term, entries) :: groups' =>
      match group_step G term entries with
      | (G', inl e) => (G', Raise e)
      | (G', inr _) => groups_loop groups' G'
      end
  end.

Definition set_background (G : Graph) (df : DataFrame)
    (entry_id category_id : string) : Graph * result unit :=
  match df !! entry_id with
  | None => (G, Raise (KeyError entry_id))
  | Some entries_col =>
      let M := Z.of_nat (size (list_to_set entries_col : gset string)) in
      let G1 := with_nodes G (reset_background M <$> node G) in
      match df !! category_id with
      | None => (G1, Raise (KeyError category_id))
      | Some category_col => groups_loop (groupby category_col entries_col) G1
      end
  end.

(** ** multiple_testing_correction *)

Definition set_q (nd : Node) (q : float) (significant : bool) : Node :=
  {| attr_namespace := attr_namespace nd;
     attr_background := attr_background nd;
     attr_M := attr_M nd;
     attr_query := attr_query nd; attr_n := attr_n nd; attr_N := attr_N nd;
     attr_hits := attr_hits nd; attr_x := attr_x nd; attr_p := attr_p nd;
     attr_q := Some q; attr_significant := Some significant |}.

(** [G.graph.update({'multiple-testing-correction': method, 'alpha': alpha})] *)
Definition graph_update (G : Graph) (method : string) (alpha : float) : Graph :=
  {| node := node G; adj := adj G; roots := roots G;
     mtc_method := Some method; mtc_alpha := Some alpha |}.

(** The literal [0.05] of line 118. *)
Definition literal_0_05 : float := round64 (5 # 100).

(** Lines 114-118. *)
Fixpoint bonferroni_loop (n : Z) (items : list (string * float)) (G : Graph)
    : Graph * result unit :=
  match items with
  | [] => (G, Ok tt)
  | (term, p) :: items' =>
      match node G !! term with
      | None => (G, Raise (KeyError term))
      | Some nd =>
          let q := fmul_int p n in
          bonferroni_loop n items'
            (set_node G term (set_q nd q (flt q literal_0_05)))
      end
  end.

(** Lines 122-125. *)
Fixpoint fdr_loop (items : list (string * (float * bool))) (G : Graph)
    : Graph * result unit :=
  match items with
  | [] => (G, Ok tt)
  | (term, (q, rej)) :: items' =>
      match node G !! term with
      | None => (G, Raise (KeyError term))
      | Some nd => fdr_loop items' (set_node G term (set_q nd q rej))
      end
  end.

Section Correction.

(** statsmodels' [fdrcorrection(pvals, alpha)], which returns the rejection
    flags and the adjusted p-values, in the order of [pvals]. *)
Variable fdrcorrection : list float -> float -> list bool * list float.

Definition multiple_testing_correction (G : Graph)
    (pvalues : gmap string float) (alpha : float) (method : string)
    : Graph * result unit :=
  let G := graph_update G method alpha in
  if decide (method = "bonferroni") then
    let n := Z.of_nat (size pvalues) in
    bonferroni_loop n (map_to_list pvalues) G
  else if decide (method = "benjamini-hochberg") then
    match map_to_list pvalues with
    | [] => (G, Raise (ValueError "need more than 0 values to unpack"))
    | items =>
        let terms := items.*1 in
        let ps := items.*2 in
        let '(rejs, qs) := fdrcorrection ps alpha in
        fdr_loop (zip terms (zip qs rejs)) G
    end
  else (G, Raise (ValueError method)).

End Correction.

(** The keyword defaults of [multiple_testing_correction]. *)
Definition default_alpha : float := round64 (5 # 100).
Definition default_method : string := "benjamini-hochberg".

(** What the step leaves on the node, by the branch it takes. *)
Inductive step_outcome (query_set : gset string)
    (N min_hit_size min_category_size max_category_size : Z) (nd0 : Node)
    : Node * result (option float) -> Prop :=
  | step_size_skipped :
      size_skip (Z.of_nat (size (default ∅ (attr_background nd0))))
        min_category_size max_category_size = true ->
      step_outcome query_set N min_hit_size min_category_size
        max_category_size nd0 (reset_query nd0, Ok None)
  | step_hit_skipped :
      let n := Z.of_nat (size (default ∅ (attr_background nd0))) in
      let x := Z.of_nat (size (query_set ∩ default ∅ (attr_background nd0))) in
      size_skip n min_category_size max_category_size = false ->
      x < min_hit_size ->
      step_outcome query_set N min_hit_size min_category_size
        max_category_size nd0 (set_n (reset_query nd0) n, Ok None)
  | step_retained M :
      let background := default ∅ (attr_background nd0) in
      let n := Z.of_nat (size background) in
      let hits := query_set ∩ background in
      let x := Z.of_nat (size hits) in
      let p := hypergeom_sf x M n N in
      size_skip n min_category_size max_category_size = false ->
      min_hit_size <= x ->
      attr_M nd0 = Some M ->
      step_outcome query_set N min_hit_size min_category_size
        max_category_size nd0
        (set_p (set_hits (set_n (reset_query nd0) n) query_set N hits x) p,
         Ok (Some p))
  | step_no_M :
      let background := default ∅ (attr_background nd0) in
      let n := Z.of_nat (size background) in
      let hits := query_set ∩ background in
      let x := Z.of_nat (size hits) in
      size_skip n min_category_size max_category_size = false ->
      min_hit_size <= x ->
      attr_M nd0 = None ->
      step_outcome query_set N min_hit_size min_category_size
        max_category_size nd0
        (set_hits (set_n (reset_query nd0) n) query_set N hits x,
         Raise (KeyError "M")).

(** ** Paths, and what set_background leaves unchanged *)

(** A walk: every node is followed by one of its successors. *)
Fixpoint is_walk (G : Graph) (p : list string) : Prop :=
  match p with
  | [] => True
  | u :: p' =>
      match p' with
      | [] => True
      | v :: _ => v ∈ successors G u /\ is_walk G p'
      end
  end.

(** A simple path from [s] to [t] as networkx lists them: a walk of at
    least one edge that repeats no node, except that it may close a cycle
    when [s = t]. *)
Definition simple_path (G : Graph) (s t : string) (p : list string) : Prop :=
  is_walk G p /\ head p = Some s /\ last p = Some t /\
  (2 <= length p)%nat /\ NoDup (tail p) /\ (s ≠ t -> NoDup p).

(** [t] is [s] or can be reached from it along the edges. *)
Definition reaches (G : Graph) (s t : string) : Prop :=
  exists p, is_walk G p /\ head p = Some s /\ last p = Some t.

(** The graph is acyclic: no walk comes back to a node. *)
Definition acyclic (G : Graph) : Prop :=
  forall p, is_walk G p -> NoDup p.

(** The invariant of a networkx graph: both ends of an edge are nodes. *)
Definition wf_graph (G : Graph) : Prop :=
  forall u v, v ∈ successors G u ->
    is_Some (node G !! u) /\ is_Some (node G !! v).

(** Every term has a namespace with a configured root and reaches it. *)
Definition rooted (G : Graph) : Prop :=
  forall t nd, node G !! t = Some nd ->
    exists ns rs r,
      attr_namespace nd = Some ns /\ roots G = Some rs /\ rs !! ns = Some r /\
      reaches G t r.

(** Every edge joins two terms of the same namespace. *)
Definition namespace_closed (G : Graph) : Prop :=
  forall u v ndu ndv, v ∈ successors G u ->
    node G !! u = Some ndu -> node G !! v = Some ndv ->
    attr_namespace ndu = attr_namespace ndv.

(** The node without the two attributes [set_background] writes. *)
Definition erase_node (nd : Node) : Node :=
  {| attr_namespace := attr_namespace nd;
     attr_background := None;
     attr_M := None;
     attr_query := attr_query nd; attr_n := attr_n nd; attr_N := attr_N nd;
     attr_hits := attr_hits nd; attr_x := attr_x nd; attr_p := attr_p nd;
     attr_q := attr_q nd; attr_significant := attr_significant nd |}.

Definition erase (G : Graph) : Graph := with_nodes G (erase_node <$> node G).

(** The background of node [m], empty when the node or the key is absent. *)
Definition bg_of (G : Graph) (m : string) : gset string :=
  default ∅ (node G !! m ≫= attr_background).

(** Every node has a [background] key. *)
Definition has_backgrounds (G : Graph) : Prop :=
  forall m nd, node G !! m = Some nd -> is_Some (attr_background nd).

(** [G'] differs from [G] only by backgrounds that have grown, and every
    new member [e] of the background of a node [m] satisfies [P m e]. *)
Definition grows (P : string -> string -> Prop) (G G' : Graph) : Prop :=
  erase G' = erase G /\
  (has_backgrounds G -> has_backgrounds G') /\
  forall m, bg_of G m ⊆ bg_of G' m /\
            forall e, e ∈ bg_of G' m -> e ∈ bg_of G m \/ P m e.

(** Category [c] with entries [es] reaches node [m] in [G]: [m] lies on one
    of the paths listed from [c] to the root of its namespace. *)
Definition propagates (G : Graph) (c : string) (m : string) : Prop :=
  exists paths path,
    term_paths G c = Ok paths /\ path ∈ paths /\ m ∈ path.

(** ** Example graphs *)

(** A term of namespace [ns] as [set_background] leaves it. *)
Definition term_node (ns : string) (background : list string) (M : Z) : Node :=
  mkNode (Some ns) (Some (list_to_set background)) (Some M)
    None None None None None None None None.

(** A term that [set_background] has never seen. *)
Definition bare_node (ns : string) : Node :=
  mkNode (Some ns) None None None None None None None None None None.

(** The same term with the results of an earlier query and correction. *)
Definition stale_node (ns : string) (background : list string) (M : Z) : Node :=
  mkNode (Some ns) (Some (list_to_set background)) (Some M)
    (Some {["z"]}) (Some 7) (Some 1) (Some {["z"]}) (Some 1)
    (Some (Fin (1 # 100))) (Some (Fin (2 # 100))) (Some true).

(** A graph of the single term ["t"], the root of its namespace. *)
Definition one_term_graph (nd : Node) : Graph :=
  mkGraph {["t" := nd]} {["t" := []]} (Some {["bp" := "t"]}) None None.

(** ** Checks for concrete graphs

    Decidable forms of the graph predicates, over the dictionaries. *)

Definition wf_graph_check (G : Graph) : Prop :=
  map_Forall (fun u vs =>
    is_Some (node G !! u) /\ Forall (fun v => is_Some (node G !! v)) vs)
    (adj G).

(** [rank] decreases along every edge. *)
Definition ranked (G : Graph) (rank : string -> nat) : Prop :=
  map_Forall (fun u vs => Forall (fun v => (rank v < rank u)%nat) vs) (adj G).

Definition namespace_closed_check (G : Graph) : Prop :=
  map_Forall (fun u vs =>
    Forall (fun v => node G !! u ≫= attr_namespace
                     = node G !! v ≫= attr_namespace) vs)
    (adj G).

(** The term is the root of its namespace, or a path to it is listed. *)
Definition reaches_root (G : Graph) (t : string) (nd : Node) : bool :=
  match attr_namespace nd, roots G with
  | Some ns, Some rs =>
      match rs !! ns with
      | Some r =>
          if decide (t = r) then true
          else match all_simple_paths G t r with
               | inr (_ :: _) => true
               | _ => false
               end
      | None => false
      end
  | _, _ => false
  end.

Definition rooted_check (G : Graph) : Prop :=
  map_Forall (fun t nd => reaches_root G t nd = true) (node G).

#[global] Instance wf_graph_check_dec G : Decision (wf_graph_check G).
Proof. unfold wf_graph_check. apply _. Defined.

#[global] Instance ranked_dec G rank : Decision (ranked G rank).
Proof. unfold ranked. apply _. Defined.

#[global] Instance namespace_closed_check_dec G :
  Decision (namespace_closed_check G).
Proof. unfold namespace_closed_check. apply _. Defined.

#[global] Instance rooted_check_dec G : Decision (rooted_check G).
Proof. unfold rooted_check. apply _. Defined.

(** The diamond: [leaf] has the parents [a] and [b], both children of
    [root]; one category annotated at each of [leaf], [a] and [b]. *)
Definition diamond_graph : Graph :=
  mkGraph
    (list_to_map [("root", bare_node "bp"); ("a", bare_node "bp");
                  ("b", bare_node "bp"); ("leaf", bare_node "bp")])
    (list_to_map [("root", []); ("a", ["root"]); ("b", ["root"]);
                  ("leaf", ["a"; "b"])])
    (Some {["bp" := "root"]}) None None.

Definition diamond_table : DataFrame :=
  list_to_map [("gene", ["g1"; "g2"; "g3"]); ("go", ["leaf"; "a"; "b"])].

Definition other_table : DataFrame :=
  list_to_map [("gene", ["h1"; "h2"]); ("go", ["a"; "a"])].

Definition diamond_rank (s : string) : nat :=
  if decide (s = "leaf") then 2%nat
  else if decide (s = "root") then 0%nat else 1%nat.

(** Two namespaces with the roots [r1] and [r2]; the term [child] of the
    first has a parent in each. *)
Definition cross_graph : Graph :=
  mkGraph
    (list_to_map [("r1", bare_node "bp"); ("r2", bare_node "mf");
                  ("child", bare_node "bp"); ("p", bare_node "mf")])
    (list_to_map [("r1", []); ("r2", []); ("child", ["r1"; "p"]);
                  ("p", ["r2"])])
    (Some (list_to_map [("bp", "r1"); ("mf", "r2")])) None None.

Definition cross_table : DataFrame :=
  list_to_map [("gene", ["g1"]); ("go", ["child"])].

Definition cross_rank (s : string) : nat :=
  if decide (s = "child") then 2%nat
  else if decide (s = "p") then 1%nat else 0%nat.

(** The term [c] has no edge; [d] is a child of [root]. *)
Definition isolated_graph : Graph :=
  mkGraph
    (list_to_map [("root", bare_node "bp"); ("c", bare_node "bp");
                  ("d", bare_node "bp")])
    (list_to_map [("root", []); ("c", []); ("d", ["root"])])
    (Some {["bp" := "root"]}) None None.

Definition isolated_table : DataFrame :=
  list_to_map [("gene", ["g1"; "g2"]); ("go", ["c"; "d"])].

(** A stand-in for [fdrcorrection] in evaluations that never reach it: no
    rejection, p-values unchanged. *)
Definition no_fdrcorrection (ps : list float) (alpha : float)
    : list bool * list float :=
  ((fun _ => false) <$> ps, ps).

(** A table on the diamond with one entry annotated at the root itself. *)
Definition root_table : DataFrame :=
  list_to_map [("gene", ["g1"; "g4"]); ("go", ["leaf"; "root"])].

(** [r] is the configured root of some namespace. *)
Definition is_root (G : Graph) (r : string) : Prop :=
  exists rs ns, roots G = Some rs /\ rs !! ns = Some r.

(** No term reaches two namespace roots.  With [rooted] this is the
    invariant of the data model: every term reaches exactly one namespace
    root, the root of its own namespace. *)
Definition one_root (G : Graph) : Prop :=
  forall t r1 r2,
    is_root G r1 -> is_root G r2 -> reaches G t r1 -> reaches G t r2 ->
    r1 = r2.

(** A term whose namespace is configured with a root that is not a node
    of the graph. *)
Definition dangling_root_graph : Graph :=
  mkGraph {["c" := bare_node "bp"]} {["c" := []]}
    (Some {["bp" := "nowhere"]}) None None.

Definition dangling_root_table : DataFrame :=
  list_to_map [("gene", ["g1"]); ("go", ["c"])].

(** ** Further predicates on set_background *)

(** [G'] is [G] after some assignments [node['background'] = b] to nodes
    of the graph, the only kind of write the loops of lines 55-61 make. *)
Inductive bg_writes : Graph -> Graph -> Prop :=
  | bg_writes_refl G : bg_writes G G
  | bg_writes_step G n nd b G' :
      node G !! n = Some nd ->
      bg_writes (set_node G n (set_bg nd b)) G' ->
      bg_writes G G'.

(** Lines 56-57 succeed for the term [c], and the root they find is a node:
    the conditions under which line 58 lists paths instead of raising. *)
Definition resolvable (G : Graph) (c : string) : Prop :=
  exists nd ns rs root,
    node G !! c = Some nd /\ attr_namespace nd = Some ns /\
    roots G = Some rs /\ rs !! ns = Some root /\ is_Some (node G !! root).

(** The rows of the table: pairs of a category and an entry. *)
Definition rows (ccol ecol : list string) : list (string * string) :=
  zip ccol ecol.

(** ** Further predicates on multiple_testing_correction *)

(** The node without the two attributes the correction writes. *)
Definition erase_q (nd : Node) : Node :=
  {| attr_namespace := attr_namespace nd;
     attr_background := attr_background nd;
     attr_M := attr_M nd;
     attr_query := attr_query nd; attr_n := attr_n nd; attr_N := attr_N nd;
     attr_hits := attr_hits nd; attr_x := attr_x nd; attr_p := attr_p nd;
     attr_q := None; attr_significant := None |}.

(** ** analyze *)

(** The keyword arguments of [analyze]; a key the caller did not pass is
    [None].  [options.update(kwargs)] leaves ['show'] at ['top20'] unless
    the caller passed one. *)
Record Options : Type := mkOptions {
  opt_min_hit_size : option Z;
  opt_min_category_size : option Z;
  opt_max_category_size : option Z;
  opt_alpha : option float;
  opt_method : option string;
  opt_show : option string;
  opt_gvfile : option string
}.

Definition no_options : Options :=
  mkOptions None None None None None None None.

(** What [analyze] can raise: an exception of the statistics or of
    [int], or the [NotImplementedError] of line 33. *)
Inductive analyze_exn : Type :=
  | Raised (e : exn)
  | NotImplementedError (show : string).

Import Stdlib.Strings.Ascii.

(** [show.replace('top', '')]. *)
Fixpoint replace_top (s : string) : string :=
  match s with
  | String "t"%char (String "o"%char (String "p"%char rest)) =>
      replace_top rest
  | String c rest => String c (replace_top rest)
  | EmptyString => EmptyString
  end.

Section Analyze.

(** The calls that leave this module, taken as they are used: the frame
    [goenrich.export.to_frame] builds from the graph, [int], the index of
    the [top] rows of the frame sorted by [q], and
    [goenrich.export.to_graphviz].  None of them writes to the graph. *)
Variables Frame Index : Type.
Variable fdrcorrection : list float -> float -> list bool * list float.
Variable to_frame : Graph -> Options -> Frame.
Variable int_of_str : string -> result Z.
Variable top_by_q : Frame -> Z -> Index.
Variable to_graphviz : Graph -> Index -> Options -> result unit.

Definition analyze (G : Graph) (query : list string) (kwargs : Options)
    : Graph * (analyze_exn + Frame) :=
  match calculate_pvalues G query
          (default default_min_hit_size (opt_min_hit_size kwargs))
          (default default_min_category_size (opt_min_category_size kwargs))
          (default default_max_category_size (opt_max_category_size kwargs))
  with
  | (G1, inl e) => (G1, inl (Raised e))
  | (G1, inr pvalues) =>
      match multiple_testing_correction fdrcorrection G1 pvalues
              (default default_alpha (opt_alpha kwargs))
              (default default_method (opt_method kwargs))
      with
      | (G2, inl e) => (G2, inl (Raised e))
      | (G2, inr _) =>
          let df := to_frame G2 kwargs in
          match opt_gvfile kwargs with
          | None => (G2, inr df)
          | Some _ =>
              let show := default "top20" (opt_show kwargs) in
              if String.prefix "top" show then
                match int_of_str (replace_top show) with
                | inl e => (G2, inl (Raised e))
                | inr top =>
                    match to_graphviz G2 (top_by_q df top) kwargs with
                    | inl e => (G2, inl (Raised e))
                    | inr _ => (G2, inr df)
                    end
                end
              else (G2, inl (NotImplementedError show))
          end
      end
  end.

End Analyze.

(** * Properties *)

(** ** The per-node step of calculate_pvalues *)

Section PvalueNode.

Variable query_set : gset string.
Variable N min_hit_size min_category_size max_category_size : Z.

Let step := pvalue_node query_set N min_hit_size min_category_size
              max_category_size.

Lemma pvalue_node_outcome nd0 :
  step_outcome query_set N min_hit_size min_category_size max_category_size
    nd0 (step nd0).
Proof.
  unfold step, pvalue_node. cbn [attr_background reset_query].
  destruct (size_skip _ _ _) eqn:Hskip.
  { by constructor. }
  destruct (Z.ltb_spec (Z.of_nat (size (query_set ∩ default ∅ (attr_background nd0))))
              min_hit_size) as [Hlt|Hge].
  { by constructor. }
  cbn [attr_M attr_n set_hits set_n reset_query].
  destruct (attr_M nd0) as [M|] eqn:HM.
  - by apply step_retained.
  - by apply step_no_M.
Qed.

(** A node that carries [M] never makes the step raise. *)
Lemma pvalue_node_total nd0 :
  is_Some (attr_M nd0) -> exists nd r, step nd0 = (nd, Ok r).
Proof.
  intros [M HM]. destruct (pvalue_node_outcome nd0); eauto.
  congruence.
Qed.

End PvalueNode.

(** With any window whose lower end is not above its upper end by two or
    more, the size filter of line 85 skips nothing. *)
Lemma size_skip_never n min_category_size max_category_size :
  min_category_size <= max_category_size + 1 ->
  size_skip n min_category_size max_category_size = false.
Proof.
  intros Hwin. unfold size_skip.
  destruct (Z.ltb_spec max_category_size n), (Z.ltb_spec n min_category_size);
    simpl; try reflexivity; lia.
Qed.

(** ** The loop of calculate_pvalues *)

Section PvaluesLoop.

Variable query_set : gset string.
Variable N min_hit_size min_category_size max_category_size : Z.

Local Abbreviation loop :=
  (pvalues_loop query_set N min_hit_size min_category_size max_category_size).
Local Abbreviation step :=
  (pvalue_node query_set N min_hit_size min_category_size max_category_size).

(** The loop touches nothing but the attribute dictionaries. *)
Lemma pvalues_loop_frame ks : forall G pv,
  adj (loop ks G pv).1 = adj G /\ roots (loop ks G pv).1 = roots G /\
  mtc_method (loop ks G pv).1 = mtc_method G /\
  mtc_alpha (loop ks G pv).1 = mtc_alpha G.
Proof.
  induction ks as [|i ks IH]; intros G pv; simpl; [done|].
  destruct (node G !! i) as [nd0|]; [|done].
  destruct (step nd0) as [nd [e|[p|]]]; simpl; [done|..].
  - by destruct (IH (set_node G i nd) (<[i:=p]> pv)).
  - by destruct (IH (set_node G i nd) pv).
Qed.

(** A run over distinct identifiers that returns has applied the step once
    to every listed node, kept every other node, and recorded exactly the
    p-values the steps produced. *)
Lemma pvalues_loop_ok ks : forall G pv G' pv',
  NoDup ks ->
  loop ks G pv = (G', Ok pv') ->
  forall i,
    (i ∉ ks -> node G' !! i = node G !! i /\ pv' !! i = pv !! i) /\
    (i ∈ ks -> exists nd0 nd r,
        node G !! i = Some nd0 /\ step nd0 = (nd, Ok r) /\
        node G' !! i = Some nd /\
        pv' !! i = match r with Some p => Some p | None => pv !! i end).
Proof.
  induction ks as [|k ks IH]; intros G pv G' pv' Hnd Hrun i; simpl in Hrun.
  { inversion Hrun; subst. split; [done|]. by intros ?%elem_of_nil. }
  apply NoDup_cons in Hnd as [Hk Hnd].
  destruct (node G !! k) as [nd0|] eqn:Hlook; [|done].
  destruct (step nd0) as [nd r] eqn:Hstep.
  destruct r as [e|r]; [done|].
  set (pv1 := match r with Some p => <[k:=p]> pv | None => pv end).
  assert (Hrun' : loop ks (set_node G k nd) pv1 = (G', Ok pv'))
    by (by destruct r).
  destruct (IH _ _ _ _ Hnd Hrun' i) as [Hout Hin].
  assert (Hpv1 : i ≠ k -> pv1 !! i = pv !! i).
  { intros Hne. unfold pv1. destruct r; [by rewrite lookup_insert_ne|done]. }
  split.
  - intros [Hne Hni]%not_elem_of_cons.
    destruct (Hout Hni) as [-> ->]. simpl.
    by rewrite lookup_insert_ne, Hpv1.
  - intros [->|Hi]%elem_of_cons.
    + destruct (Hout Hk) as [-> ->]. simpl. rewrite lookup_insert_eq.
      exists nd0, nd, r. repeat split; [done..|].
      unfold pv1. destruct r; [by rewrite lookup_insert_eq|done].
    + destruct (Hin Hi) as (nd0' & nd' & r' & H1 & H2 & H3 & H4).
      assert (i ≠ k) by (intros ->; done).
      simpl in H1. rewrite lookup_insert_ne in H1 by done.
      exists nd0', nd', r'. repeat split; [done..|].
      rewrite H4. destruct r'; [done|]. by apply Hpv1.
Qed.

(** The loop returns as soon as every listed node exists and carries [M]. *)
Lemma pvalues_loop_total ks : forall G pv,
  NoDup ks ->
  (forall i, i ∈ ks -> exists nd0, node G !! i = Some nd0 /\ is_Some (attr_M nd0)) ->
  exists G' pv', loop ks G pv = (G', Ok pv').
Proof.
  induction ks as [|k ks IH]; intros G pv Hnd HM; simpl; [eauto|].
  apply NoDup_cons in Hnd as [Hk Hnd].
  destruct (HM k) as (nd0 & -> & HMk); [by left|].
  destruct (pvalue_node_total query_set N min_hit_size min_category_size
              max_category_size nd0 HMk) as (nd & r & ->).
  assert (Hrest : forall pv1, exists G' pv', loop ks (set_node G k nd) pv1 = (G', Ok pv')).
  { intros pv1. apply IH; [done|]. intros i Hi.
    destruct (HM i) as (ndi & Hlook & HMi); [by right|].
    exists ndi. split; [|done]. simpl. rewrite lookup_insert_ne; [done|].
    by intros ->. }
  destruct r; apply Hrest.
Qed.

End PvaluesLoop.

(** ** calculate_pvalues as a whole *)

Lemma elem_of_node_keys (G : Graph) i :
  i ∈ (map_to_list (node G)).*1 <-> is_Some (node G !! i).
Proof.
  rewrite list_elem_of_fmap. split.
  - intros [[k nd] [-> Hin%elem_of_map_to_list]]. by eexists.
  - intros [nd Hnd]. exists (i, nd). by rewrite elem_of_map_to_list.
Qed.

(** A call that returns has applied the step to every node of the graph,
    and its map holds the p-value of exactly the nodes whose step produced
    one. *)
Lemma calculate_pvalues_ok G query mh minc maxc G' pv :
  calculate_pvalues G query mh minc maxc = (G', Ok pv) ->
  forall i,
    match node G !! i with
    | None => node G' !! i = None /\ pv !! i = None
    | Some nd0 => exists nd r,
        pvalue_node (list_to_set query)
          (Z.of_nat (size (list_to_set query : gset string)))
          mh minc maxc nd0 = (nd, Ok r) /\
        node G' !! i = Some nd /\ pv !! i = r
    end.
Proof.
  intros Hrun i. unfold calculate_pvalues in Hrun.
  destruct (pvalues_loop_ok _ _ _ _ _ _ _ _ _ _
              (NoDup_fst_map_to_list (node G)) Hrun i) as [Hout Hin].
  destruct (node G !! i) as [nd0|] eqn:Hlook.
  - destruct Hin as (nd0' & nd & r & H1 & H2 & H3 & H4).
    { apply elem_of_node_keys. by rewrite Hlook. }
    simplify_eq. exists nd, r. repeat split; [done..|].
    rewrite H4. by destruct r.
  - destruct Hout as [-> ->]; [|done].
    rewrite elem_of_node_keys, Hlook. by intros [? ?].
Qed.

(** On a graph whose every node carries [M] (any graph [set_background]
    has reset), the call returns. *)
Lemma calculate_pvalues_total G query mh minc maxc :
  (forall i nd0, node G !! i = Some nd0 -> is_Some (attr_M nd0)) ->
  exists G' pv, calculate_pvalues G query mh minc maxc = (G', Ok pv).
Proof.
  intros HM. apply pvalues_loop_total; [apply NoDup_fst_map_to_list|].
  intros i [nd0 Hnd]%elem_of_node_keys. eauto.
Qed.

(** Every retained term records the library's [sf] at [x] itself, the mass
    of the support points strictly above [x]. *)
Lemma retained_pvalue_strict_tail G query mh minc maxc G' pv i p :
  calculate_pvalues G query mh minc maxc = (G', Ok pv) ->
  pv !! i = Some p ->
  exists nd M,
    node G' !! i = Some nd /\ attr_M nd = Some M /\ attr_p nd = Some p /\
    let x := Z.of_nat (size ((list_to_set query : gset string)
                               ∩ default ∅ (attr_background nd))) in
    let n := Z.of_nat (size (default ∅ (attr_background nd))) in
    let N := Z.of_nat (size (list_to_set query : gset string)) in
    p = hypergeom_sf x M n N /\
    (hypergeom_valid M n N = true -> p = Fin (upper_tail (x + 1) M n N)).
Proof.
  intros Hrun Hp. pose proof (calculate_pvalues_ok _ _ _ _ _ _ _ Hrun i) as H.
  destruct (node G !! i) as [nd0|]; [|destruct H; congruence].
  destruct H as (nd & r & Hstep & Hnd & Hr).
  pose proof (pvalue_node_outcome (list_to_set query)
    (Z.of_nat (size (list_to_set query : gset string))) mh minc maxc nd0) as Hout.
  rewrite Hstep in Hout. rewrite Hp in Hr. subst r.
  inversion Hout; subst. eexists _, M. split; [exact Hnd|]. simpl.
  repeat split; [done..|].
  intros Hv. subst p0 x hits n background. unfold hypergeom_sf. by rewrite Hv.
Qed.

(** C1 (evaluation of the code at the failing inputs).  With the default
    thresholds a term of category size 2, below [min_category_size = 3], is
    not skipped by the size filter: it is retained in the p-value map and
    receives every result field.  With [min_hit_size = 1] and the default
    window the same happens to a term of size 1. *)
Theorem C1_size_window_not_enforced :
  let r2 := calculate_pvalues (one_term_graph (term_node "bp" ["a"; "b"] 5))
              ["a"; "b"] default_min_hit_size default_min_category_size
              default_max_category_size in
  let r1 := calculate_pvalues (one_term_graph (term_node "bp" ["a"] 5))
              ["a"] 1 default_min_category_size default_max_category_size in
  r2.2 = Ok {["t" := Fin 0]} /\
  attr_n <$> node r2.1 !! "t" = Some (Some 2) /\
  attr_x <$> node r2.1 !! "t" = Some (Some 2) /\
  attr_p <$> node r2.1 !! "t" = Some (Some (Fin 0)) /\
  r1.2 = Ok {["t" := Fin 0]} /\
  attr_n <$> node r1.1 !! "t" = Some (Some 1).
Proof. vm_compute. repeat split; reflexivity. Qed.

(** C2 (evaluation of the code at the failing input).  Population 4, a
    category of 3, a query of 3 that hits all 3: the probability of 3 or
    more hits is 1/4, and the code records 0, the probability of more than
    3.  On the spec's scenario (M = 100, n = 10, N = 20, x = 5) the value
    [sf] returns at [x] and the probability of [x] or more differ as well. *)
Theorem C2_pvalue_is_strict_upper_tail :
  let r := calculate_pvalues
             (one_term_graph (term_node "bp" ["a"; "b"; "c"] 4))
             ["a"; "b"; "c"] default_min_hit_size default_min_category_size
             default_max_category_size in
  r.2 = Ok {["t" := Fin 0]} /\
  upper_tail 3 4 3 3 = (1 # 4)%Q /\
  upper_tail 0 4 3 3 = 1%Q /\
  hypergeom_sf 5 100 10 20 = Fin (894931 # 227539690) /\
  upper_tail 5 100 10 20 = (1158839 # 45507938)%Q /\
  upper_tail 0 100 10 20 = 1%Q.
Proof. vm_compute. repeat split; reflexivity. Qed.




(** ** Terms without a background *)

(** The step on a node with no [background] key, when at least one hit is
    required: [n] is 0, there are no hits, and the node is passed over
    without an exception. *)
Lemma pvalue_node_no_background query_set N mh minc maxc nd0 :
  attr_background nd0 = None ->
  1 <= mh ->
  pvalue_node query_set N mh minc maxc nd0 = (reset_query nd0, Ok None) \/
  pvalue_node query_set N mh minc maxc nd0
    = (set_n (reset_query nd0) 0, Ok None).
Proof.
  intros Hbg Hmh.
  assert (Hx : Z.of_nat (size (query_set ∩ default ∅ (attr_background nd0))) = 0).
  { rewrite Hbg. cbn [from_option]. by rewrite intersection_empty_r_L, size_empty. }
  assert (Hn : Z.of_nat (size (default ∅ (attr_background nd0))) = 0).
  { rewrite Hbg. cbn [from_option]. by rewrite size_empty. }
  destruct (pvalue_node_outcome query_set N mh minc maxc nd0)
    as [Hs|n x Hs Hlt|M bg n hits x p Hs Hge HM|bg n hits x Hs Hge HM].
  - by left.
  - right. subst n. by rewrite Hn.
  - subst x hits bg. lia.
  - subst x hits bg. lia.
Qed.

(** A run in which every step passes its node over returns the map it was
    given. *)
Lemma pvalues_loop_all_skipped query_set N mh minc maxc ks : forall G pv,
  NoDup ks ->
  (forall i, i ∈ ks -> exists nd0 nd,
      node G !! i = Some nd0 /\
      pvalue_node query_set N mh minc maxc nd0 = (nd, Ok None)) ->
  exists G', pvalues_loop query_set N mh minc maxc ks G pv = (G', Ok pv).
Proof.
  induction ks as [|k ks IH]; intros G pv Hnd Hall; simpl; [eauto|].
  apply NoDup_cons in Hnd as [Hk Hnd].
  destruct (Hall k) as (nd0 & nd & -> & ->); [by left|].
  apply IH; [done|]. intros i Hi.
  destruct (Hall i) as (ndi & ndi' & Hlook & Hstep); [by right|].
  exists ndi, ndi'. split; [|done]. simpl.
  rewrite lookup_insert_ne; [done|]. by intros ->.
Qed.

(** C7 (counterexample).  With [min_hit_size = 0] and
    [min_category_size = 0] a term that has no background, so [n = 0] and no
    hit, lies inside the window and has enough hits: it is not filtered
    out.  If it has no [M] either, as on a graph [set_background] never ran
    on, the call raises [KeyError]; if it has an [M], the term is in the
    returned map. *)
Lemma C7_counterexample :
  (calculate_pvalues (one_term_graph (bare_node "bp")) ["a"] 0 0
     default_max_category_size).2
  = Raise (KeyError "M") /\
  exists pv,
    (calculate_pvalues
       (one_term_graph (mkNode (Some "bp") None (Some 5)
                          None None None None None None None None))
       ["a"] 0 0 default_max_category_size).2 = Ok pv /\
    is_Some (pv !! "t").
Proof.
  split; [by vm_compute|].
  eexists. split; [by vm_compute|]. eexists. by vm_compute.
Qed.

(** C7 (amended).  When at least one hit is required
    ([1 <= min_hit_size]), a term whose node has no [background] key is
    treated as having [n = 0]: its step raises nothing and records no
    p-value, the term is absent from the map of every call that returns, and
    on a graph where no node has a background the call returns the empty
    map. *)
Theorem C7_missing_background G query mh minc maxc :
  1 <= mh ->
  (forall i nd0,
     node G !! i = Some nd0 -> attr_background nd0 = None ->
     let step := pvalue_node (list_to_set query)
                   (Z.of_nat (size (list_to_set query : gset string)))
                   mh minc maxc nd0 in
     step.2 = Ok None /\
     (attr_n step.1 = None \/ attr_n step.1 = Some 0) /\
     forall G' pv,
       calculate_pvalues G query mh minc maxc = (G', Ok pv) -> pv !! i = None) /\
  ((forall i nd0, node G !! i = Some nd0 -> attr_background nd0 = None) ->
   exists G', calculate_pvalues G query mh minc maxc = (G', Ok ∅)).
Proof.
  intros Hmh. split.
  - intros i nd0 Hnd Hbg step.
    pose proof (pvalue_node_no_background (list_to_set query)
      (Z.of_nat (size (list_to_set query : gset string))) mh minc maxc
      nd0 Hbg Hmh) as Hstep.
    fold step in Hstep.
    assert (Hr : step.2 = Ok None) by (destruct Hstep as [-> | ->]; done).
    split; [done|]. split.
    { destruct Hstep as [-> | ->]; simpl; auto. }
    intros G' pv Hrun.
    pose proof (calculate_pvalues_ok _ _ _ _ _ _ _ Hrun i) as H.
    rewrite Hnd in H. destruct H as (nd & r & Hstep' & _ & ->).
    fold step in Hstep'. rewrite Hstep' in Hr. simpl in Hr. congruence.
  - intros Hall. apply pvalues_loop_all_skipped.
    { apply NoDup_fst_map_to_list. }
    intros i [nd0 Hnd]%elem_of_node_keys.
    destruct (pvalue_node_no_background (list_to_set query)
      (Z.of_nat (size (list_to_set query : gset string))) mh minc maxc
      nd0 (Hall _ _ Hnd) Hmh) as [H|H]; eauto.
Qed.

Lemma C7_witness :
  (1 <= 2) /\
  exists G', calculate_pvalues (one_term_graph (bare_node "bp")) ["a"] 2 3 500
             = (G', Ok ∅).
Proof.
  assert (H12 : 1 <= 2) by lia.
  split; [exact H12|].
  apply (C7_missing_background (one_term_graph (bare_node "bp")) ["a"] 2 3 500 H12).
  intros i nd0. unfold one_term_graph. simpl.
  intros [_ <-]%lookup_singleton_Some. reflexivity.
Defined.

(** ** multiple_testing_correction *)

(** The Bonferroni loop over distinct terms, when it returns: every listed
    term has received [q = p * n] and the flag [q < 0.05]; every other node
    is as before. *)
Lemma bonferroni_loop_ok n items : forall G G',
  NoDup items.*1 ->
  bonferroni_loop n items G = (G', Ok tt) ->
  forall term,
    (term ∉ items.*1 -> node G' !! term = node G !! term) /\
    (forall p, (term, p) ∈ items -> exists nd,
        node G !! term = Some nd /\
        node G' !! term
        = Some (set_q nd (fmul_int p n) (flt (fmul_int p n) literal_0_05))).
Proof.
  induction items as [|[k pk] items IH]; intros G G' Hnd Hrun term;
    simpl in Hrun.
  { inversion Hrun; subst. split; [done|]. by intros p ?%elem_of_nil. }
  simpl in Hnd. apply NoDup_cons in Hnd as [Hk Hnd].
  destruct (node G !! k) as [ndk|] eqn:Hlook; [|done].
  destruct (IH _ _ Hnd Hrun term) as [Hout Hin]. split.
  - simpl. intros [Hne Hni]%not_elem_of_cons.
    rewrite (Hout Hni). simpl. by rewrite lookup_insert_ne.
  - intros p [Heq|Hp]%elem_of_cons.
    + inversion Heq; subst. rewrite (proj1 (IH _ _ Hnd Hrun k) Hk). simpl.
      rewrite lookup_insert_eq. eauto.
    + assert (term ≠ k).
      { intros ->. apply Hk. apply list_elem_of_fmap. by exists (k, p). }
      destruct (Hin p Hp) as (nd & H1 & H2). simpl in H1.
      rewrite lookup_insert_ne in H1 by done. eauto.
Qed.

Section CorrectionProperties.

Variable fdrcorrection : list float -> float -> list bool * list float.

(** Under 'bonferroni', a call that returns has set, on every tested term,
    [q = p * k] for the [k] tested terms and [significant = (q < 0.05)],
    whatever [alpha] the caller gave; no other node has changed. *)
Lemma bonferroni_ok G pvalues alpha G' :
  multiple_testing_correction fdrcorrection G pvalues alpha "bonferroni"
  = (G', Ok tt) ->
  mtc_method G' = Some "bonferroni" /\ mtc_alpha G' = Some alpha /\
  forall term,
    match pvalues !! term with
    | Some p => exists nd,
        let q := fmul_int p (Z.of_nat (size pvalues)) in
        node G !! term = Some nd /\
        node G' !! term = Some (set_q nd q (flt q literal_0_05))
    | None => node G' !! term = node G !! term
    end.
Proof.
  unfold multiple_testing_correction. rewrite decide_True by done.
  intros Hrun.
  assert (Hframe : forall items H H0,
    bonferroni_loop (Z.of_nat (size pvalues)) items H = (H0, Ok tt) ->
    mtc_method H0 = mtc_method H /\ mtc_alpha H0 = mtc_alpha H).
  { induction items as [|[k pk] items IH]; intros H H0 HH; simpl in HH.
    - by inversion HH.
    - destruct (node H !! k); [|done]. by destruct (IH _ _ HH). }
  destruct (Hframe _ _ _ Hrun) as [-> ->]. do 2 (split; [done|]).
  intros term.
  destruct (bonferroni_loop_ok _ _ _ _ (NoDup_fst_map_to_list pvalues)
              Hrun term) as [Hout Hin].
  destruct (pvalues !! term) as [p|] eqn:Hp.
  - apply elem_of_map_to_list in Hp. destruct (Hin p Hp) as (nd & H1 & H2).
    by exists nd.
  - rewrite Hout; [done|]. rewrite list_elem_of_fmap.
    intros [[k pk] [-> Hin'%elem_of_map_to_list]]. simpl in Hp. congruence.
Qed.

(** C3 (evaluation of the code at the failing input).  One tested term with
    [p = 0.03], method 'bonferroni', [alpha = 0.01]: the call sets
    [q = 0.03 * 1] and flags the term significant, although [q < alpha] is
    false; the flag is [q < 0.05], the literal of line 118. *)
Theorem C3_bonferroni_literal_threshold :
  let G := one_term_graph (term_node "bp" ["a"; "b"; "c"] 4) in
  let alpha := Fin (1 # 100) in
  let r := multiple_testing_correction fdrcorrection G
             {["t" := Fin (3 # 100)]} alpha "bonferroni" in
  r.2 = Ok tt /\
  attr_q <$> node r.1 !! "t" = Some (Some (Fin (3 # 100))) /\
  attr_significant <$> node r.1 !! "t" = Some (Some true) /\
  flt (Fin (3 # 100)) alpha = false /\
  flt (Fin (3 # 100)) literal_0_05 = true.
Proof. vm_compute. repeat split; reflexivity. Qed.

(** C5 (amended).  For every method string other than 'bonferroni' and
    'benjamini-hochberg' the call raises [ValueError(method)]; every node,
    edge and root is as before, and the graph-level metadata has been set to
    the given method and alpha. *)
Theorem C5_unknown_method G pvalues alpha method :
  method ≠ "bonferroni" ->
  method ≠ "benjamini-hochberg" ->
  exists G',
    multiple_testing_correction fdrcorrection G pvalues alpha method
    = (G', Raise (ValueError method)) /\
    node G' = node G /\ adj G' = adj G /\ roots G' = roots G /\
    mtc_method G' = Some method /\ mtc_alpha G' = Some alpha.
Proof.
  intros Hb Hbh. exists (graph_update G method alpha).
  unfold multiple_testing_correction.
  rewrite !decide_False by done. done.
Qed.

(** C9.  With an empty p-value map the default method,
    'benjamini-hochberg', raises [ValueError] (the unpacking of the zipped
    items into [terms, ps] finds nothing), and 'bonferroni' returns. *)
Theorem C9_empty_pvalues G alpha :
  default_method = "benjamini-hochberg" /\
  (exists msg,
     (multiple_testing_correction fdrcorrection G ∅ alpha default_method).2
     = Raise (ValueError msg)) /\
  multiple_testing_correction fdrcorrection G ∅ alpha "bonferroni"
  = (graph_update G "bonferroni" alpha, Ok tt).
Proof.
  split; [done|]. split.
  - eexists. unfold multiple_testing_correction, default_method.
    rewrite decide_False by done. rewrite decide_True by done.
    rewrite map_to_list_empty. reflexivity.
  - unfold multiple_testing_correction. rewrite decide_True by done.
    by rewrite map_to_list_empty.
Qed.

End CorrectionProperties.

(** C5 (counterexample).  On a graph without correction metadata, a call
    with the unknown method 'holm' raises and leaves the graph changed: the
    metadata now names 'holm'. *)
Lemma C5_counterexample :
  let G := one_term_graph (term_node "bp" ["a"; "b"; "c"] 4) in
  let r := multiple_testing_correction no_fdrcorrection G ∅ default_alpha
             "holm" in
  r.2 = Raise (ValueError "holm") /\ r.1 ≠ G /\
  mtc_method G = None /\ mtc_method r.1 = Some "holm".
Proof.
  intros G r. split; [reflexivity|]. split; [|split; reflexivity].
  intros Heq. apply (f_equal mtc_method) in Heq. discriminate Heq.
Qed.

Lemma C5_witness :
  exists G',
    multiple_testing_correction no_fdrcorrection
      (one_term_graph (term_node "bp" ["a"; "b"; "c"] 4)) ∅ default_alpha
      "holm" = (G', Raise (ValueError "holm")) /\
    node G' = node (one_term_graph (term_node "bp" ["a"; "b"; "c"] 4)) /\
    adj G' = adj (one_term_graph (term_node "bp" ["a"; "b"; "c"] 4)) /\
    roots G' = roots (one_term_graph (term_node "bp" ["a"; "b"; "c"] 4)) /\
    mtc_method G' = Some "holm" /\ mtc_alpha G' = Some default_alpha.
Proof.
  apply (C5_unknown_method no_fdrcorrection); intros H; discriminate H.
Defined.

(** ** What set_background leaves unchanged *)

Lemma erase_set_node G n nd nd' :
  node G !! n = Some nd -> erase_node nd' = erase_node nd ->
  erase (set_node G n nd') = erase G.
Proof.
  intros Hn He. unfold erase, with_nodes, set_node. simpl. f_equal.
  rewrite fmap_insert, He. apply insert_id. by rewrite lookup_fmap, Hn.
Qed.

Lemma erase_lookup G G' m :
  erase G' = erase G ->
  erase_node <$> node G' !! m = erase_node <$> node G !! m.
Proof.
  intros He. apply (f_equal node) in He. unfold erase in He. simpl in He.
  by rewrite <- !lookup_fmap, He.
Qed.

Lemma erase_adj G G' : erase G' = erase G -> adj G' = adj G.
Proof. intros He. by apply (f_equal adj) in He. Qed.

Lemma erase_roots G G' : erase G' = erase G -> roots G' = roots G.
Proof. intros He. by apply (f_equal roots) in He. Qed.

Lemma erase_size G G' : erase G' = erase G -> size (node G') = size (node G).
Proof.
  intros He. apply (f_equal node) in He. unfold erase in He. simpl in He.
  by rewrite <- (map_size_fmap erase_node (node G')), He, map_size_fmap.
Qed.

Lemma simple_paths_dfs_adj G G' t cutoff : forall visited v,
  adj G' = adj G ->
  simple_paths_dfs G' t cutoff visited v = simple_paths_dfs G t cutoff visited v.
Proof.
  induction cutoff as [|c IH]; intros visited v Ha; simpl; [done|].
  unfold successors. rewrite Ha.
  induction (default [] (adj G !! v)) as [|child l IHl]; [done|].
  cbn [mbind list_bind]. rewrite IHl. f_equal.
  repeat case_decide; try done. by apply IH.
Qed.

(** The paths listed for a term depend on nothing [set_background]
    writes. *)
Lemma term_paths_erase G G' c :
  erase G' = erase G -> term_paths G' c = term_paths G c.
Proof.
  intros He. unfold term_paths.
  pose proof (erase_lookup _ _ c He) as Hc.
  destruct (node G' !! c) as [nd'|], (node G !! c) as [nd|];
    simpl in Hc; try done.
  assert (Hns : attr_namespace nd' = attr_namespace nd).
  { apply (inj Some) in Hc. exact (f_equal attr_namespace Hc). }
  rewrite Hns. destruct (attr_namespace nd) as [ns|]; [|done].
  rewrite (erase_roots _ _ He). destruct (roots G) as [rs|]; [|done].
  destruct (rs !! ns) as [root|]; [|done].
  unfold all_simple_paths.
  pose proof (erase_lookup _ _ c He) as Hc'.
  pose proof (erase_lookup _ _ root He) as Hr.
  destruct (node G' !! c), (node G !! c); simpl in Hc'; try done.
  destruct (node G' !! root), (node G !! root); simpl in Hr; try done.
  rewrite (erase_size _ _ He).
  by rewrite (simple_paths_dfs_adj G G') by (by apply erase_adj).
Qed.

Lemma propagates_erase G G' c m :
  erase G' = erase G -> propagates G' c m <-> propagates G c m.
Proof. intros He. unfold propagates. by rewrite (term_paths_erase _ _ _ He). Qed.

(** ** Backgrounds only grow *)

Lemma bg_of_set_node G n nd m :
  bg_of (set_node G n nd) m
  = if decide (m = n) then default ∅ (attr_background nd) else bg_of G m.
Proof.
  unfold bg_of, set_node. simpl. case_decide as Hm.
  - subst. by rewrite lookup_insert_eq.
  - by rewrite lookup_insert_ne.
Qed.

Lemma grows_refl P G : grows P G G.
Proof.
  split; [done|]. split; [done|]. intros m. split; [done|]. by left.
Qed.

Lemma grows_trans P1 P2 (R : string -> string -> Prop) G G1 G2 :
  grows P1 G G1 -> grows P2 G1 G2 ->
  (forall m e, P1 m e -> R m e) -> (forall m e, P2 m e -> R m e) ->
  grows R G G2.
Proof.
  intros (He1 & Hb1 & H1) (He2 & Hb2 & H2) HR1 HR2.
  split; [congruence|]. split; [auto|]. intros m.
  destruct (H1 m) as [Hm1 Hs1], (H2 m) as [Hm2 Hs2]. split.
  - by etrans.
  - intros e [He|He]%Hs2; [|by right; apply HR2].
    destruct (Hs1 e He); [by left|by right; apply HR1].
Qed.

Lemma grows_weaken P (R : string -> string -> Prop) G G' :
  grows P G G' -> (forall m e, P m e -> R m e) -> grows R G G'.
Proof.
  intros HP HR.
  by eapply (grows_trans P (fun _ _ => False)); [exact HP|apply grows_refl|..].
Qed.

Lemma grows_union G n nd b (es : list string) :
  node G !! n = Some nd -> attr_background nd = Some b ->
  grows (fun m e => m = n /\ e ∈ es) G
    (set_node G n (set_bg nd (b ∪ list_to_set es))).
Proof.
  intros Hn Hb. split; [by apply (erase_set_node _ _ nd)|]. split.
  { intros Hall m ndm. unfold set_node. simpl.
    destruct (decide (m = n)) as [->|Hne].
    - rewrite lookup_insert_eq. intros [= <-]. by eexists.
    - rewrite lookup_insert_ne by done. apply Hall. }
  intros m. rewrite bg_of_set_node. simpl.
  assert (Hbg : bg_of G n = b) by (unfold bg_of; by rewrite Hn; simpl; rewrite Hb).
  case_decide as Hm; [subst m; rewrite Hbg|].
  - split; [set_solver|]. intros e [He|He%elem_of_list_to_set]%elem_of_union;
      [by left|by right].
  - split; [done|by left].
Qed.

Lemma path_loop_grows es path : forall G,
  grows (fun m e => m ∈ path /\ e ∈ es) G (path_loop es path G).1.
Proof.
  induction path as [|n path IH]; intros G; simpl; [apply grows_refl|].
  destruct (node G !! n) as [nd|] eqn:Hn; [|apply grows_refl].
  destruct (attr_background nd) as [b|] eqn:Hb; [|apply grows_refl].
  eapply grows_trans; [by apply (grows_union G n nd b es)|apply IH|..].
  - intros m e [-> He]. split; [by left|done].
  - intros m e [Hm He]. split; [by right|done].
Qed.

Lemma path_loop_complete es path : forall G,
  (path_loop es path G).2 = Ok tt ->
  forall m e, m ∈ path -> e ∈ es -> e ∈ bg_of (path_loop es path G).1 m.
Proof.
  induction path as [|n path IH]; intros G Hok m e Hm He; simpl in *.
  { by apply elem_of_nil in Hm. }
  destruct (node G !! n) as [nd|] eqn:Hn; [|done].
  destruct (attr_background nd) as [b|] eqn:Hb; [|done].
  apply elem_of_cons in Hm as [->|Hm]; [|by apply IH].
  destruct (path_loop_grows es path
              (set_node G n (set_bg nd (b ∪ list_to_set es))))
    as (_ & _ & Hg).
  apply (proj1 (Hg n)). rewrite bg_of_set_node, decide_True by done.
  simpl. apply elem_of_union_r. by apply elem_of_list_to_set.
Qed.

Lemma paths_loop_grows es paths : forall G,
  grows (fun m e => (exists path, path ∈ paths /\ m ∈ path) /\ e ∈ es)
    G (paths_loop es paths G).1.
Proof.
  induction paths as [|path paths IH]; intros G; simpl; [apply grows_refl|].
  pose proof (path_loop_grows es path G) as Hstep.
  destruct (path_loop es path G) as [G1 [e|[]]]; simpl in *.
  - eapply grows_weaken; [exact Hstep|].
    intros m x [Hm Hx]. split; [|done]. exists path. split; [by left|done].
  - eapply grows_trans; [exact Hstep|apply IH|..].
    + intros m x [Hm Hx]. split; [|done]. exists path. split; [by left|done].
    + intros m x [(p & Hp & Hm) Hx]. split; [|done].
      exists p. split; [by right|done].
Qed.

Lemma paths_loop_complete es paths : forall G,
  (paths_loop es paths G).2 = Ok tt ->
  forall path m e, path ∈ paths -> m ∈ path -> e ∈ es ->
    e ∈ bg_of (paths_loop es paths G).1 m.
Proof.
  induction paths as [|p paths IH]; intros G Hok path m e Hp Hm He;
    simpl in *.
  { by apply elem_of_nil in Hp. }
  pose proof (path_loop_complete es p G) as Hc.
  destruct (path_loop es p G) as [G1 [err|[]]]; simpl in *; [done|].
  apply elem_of_cons in Hp as [->|Hp]; [|by eapply IH].
  destruct (paths_loop_grows es paths G1) as (_ & _ & Hg).
  apply (proj1 (Hg m)). by apply Hc.
Qed.

Lemma group_step_grows G c es :
  grows (fun m e => propagates G c m /\ e ∈ es) G (group_step G c es).1.
Proof.
  unfold group_step, propagates.
  destruct (term_paths G c) as [err|paths]; [apply grows_refl|].
  eapply grows_weaken; [apply paths_loop_grows|].
  intros m e [(p & Hp & Hm) He]. split; [|done]. by exists paths, p.
Qed.

Lemma group_step_complete G c es :
  (group_step G c es).2 = Ok tt ->
  forall m e, propagates G c m -> e ∈ es -> e ∈ bg_of (group_step G c es).1 m.
Proof.
  unfold group_step, propagates. intros Hok m e (paths & p & Hpaths & Hp & Hm) He.
  rewrite Hpaths in *. by eapply paths_loop_complete.
Qed.

(** The loop over the groups: a background gains an entry only from a
    group whose term propagates to the node, and when the loop returns it
    has gained every such entry. *)
Lemma groups_loop_grows groups : forall G,
  grows (fun m e => exists c es,
           (c, es) ∈ groups /\ propagates G c m /\ e ∈ es)
    G (groups_loop groups G).1.
Proof.
  induction groups as [|[c es] groups IH]; intros G; simpl;
    [apply grows_refl|].
  pose proof (group_step_grows G c es) as Hstep.
  destruct (group_step G c es) as [G1 [err|[]]]; simpl in *.
  - eapply grows_weaken; [exact Hstep|].
    intros m e [Hm He]. exists c, es. split; [by left|done].
  - eapply grows_trans; [exact Hstep|apply IH|..].
    + intros m e [Hm He]. exists c, es. split; [by left|done].
    + intros m e (c' & es' & Hin & Hm & He). exists c', es'.
      split; [by right|]. split; [|done].
      by apply (propagates_erase G G1 c' m (proj1 Hstep)).
Qed.

Lemma groups_loop_complete groups : forall G,
  (groups_loop groups G).2 = Ok tt ->
  forall c es m e, (c, es) ∈ groups -> propagates G c m -> e ∈ es ->
    e ∈ bg_of (groups_loop groups G).1 m.
Proof.
  induction groups as [|[c0 es0] groups IH]; intros G Hok c es m e Hin Hm He;
    simpl in *.
  { by apply elem_of_nil in Hin. }
  pose proof (group_step_complete G c0 es0) as Hc.
  pose proof (group_step_grows G c0 es0) as Hstep.
  destruct (group_step G c0 es0) as [G1 [err|[]]]; simpl in *; [done|].
  apply elem_of_cons in Hin as [[= -> ->]|Hin].
  - destruct (groups_loop_grows groups G1) as (_ & _ & Hg).
    apply (proj1 (Hg m)). by apply Hc.
  - eapply IH; [done|exact Hin| |done].
    by apply (propagates_erase G G1 c m (proj1 Hstep)).
Qed.

(** ** set_background as a whole *)

Lemma erase_reset M G :
  erase (with_nodes G (reset_background M <$> node G)) = erase G.
Proof.
  unfold erase, with_nodes. simpl. f_equal.
  rewrite <- map_fmap_compose. by apply map_fmap_ext.
Qed.

(** The reset of lines 49-52 forgets every earlier background and [M]. *)
Lemma reset_erase M G G' :
  erase G' = erase G ->
  with_nodes G' (reset_background M <$> node G')
  = with_nodes G (reset_background M <$> node G).
Proof.
  intros He.
  assert (Hn : reset_background M <$> node G' = reset_background M <$> node G).
  { assert (Hre : forall H : Graph, reset_background M <$> node H
                  = reset_background M <$> (erase_node <$> node H)).
    { intros H. rewrite <- map_fmap_compose. by apply map_fmap_ext. }
    rewrite (Hre G'), (Hre G). f_equal. exact (f_equal node He). }
  unfold with_nodes. rewrite Hn.
  pose proof (f_equal adj He) as Ha. pose proof (f_equal roots He) as Hr.
  pose proof (f_equal mtc_method He) as Hm.
  pose proof (f_equal mtc_alpha He) as Hal. simpl in *. congruence.
Qed.

Lemma set_background_erase G df entry_id category_id :
  erase (set_background G df entry_id category_id).1 = erase G.
Proof.
  unfold set_background.
  destruct (df !! entry_id) as [ecol|]; [|done].
  destruct (df !! category_id) as [ccol|]; simpl; [|apply erase_reset].
  rewrite (proj1 (groups_loop_grows _ _)). apply erase_reset.
Qed.

(** A second call on the graph a first call has left runs exactly as it
    would on the original graph, as soon as it reaches the reset. *)
Lemma set_background_forgets G G0 df entry_id category_id :
  erase G0 = erase G -> is_Some (df !! entry_id) ->
  set_background G0 df entry_id category_id
  = set_background G df entry_id category_id.
Proof.
  intros He [ecol Hcol]. unfold set_background. rewrite Hcol.
  by rewrite (reset_erase _ G G0 He).
Qed.

(** C8.  Calling [set_background] again with the same table and columns
    leaves the graph and the outcome of the first call: every background
    and every [M] is the same, nothing accumulates.  A call with another
    table (whose entry column exists, so that the call gets to the reset)
    gives what it gives on the original graph: nothing of the earlier
    background is left. *)
Theorem C8_set_background_idempotent G df entry_id category_id :
  set_background (set_background G df entry_id category_id).1
    df entry_id category_id
  = set_background G df entry_id category_id /\
  forall df' entry_id' category_id',
    is_Some (df' !! entry_id') ->
    set_background (set_background G df entry_id category_id).1
      df' entry_id' category_id'
    = set_background G df' entry_id' category_id'.
Proof.
  split.
  - destruct (df !! entry_id) as [ecol|] eqn:Hcol.
    + apply set_background_forgets; [apply set_background_erase|by eexists].
    + unfold set_background. by rewrite !Hcol.
  - intros df' e' c' Hsome.
    by apply set_background_forgets; [apply set_background_erase|].
Qed.

Lemma bg_of_reset M G m :
  bg_of (with_nodes G (reset_background M <$> node G)) m = ∅.
Proof.
  unfold bg_of, with_nodes. simpl. rewrite lookup_fmap.
  by destruct (node G !! m).
Qed.

Lemma has_backgrounds_reset M G :
  has_backgrounds (with_nodes G (reset_background M <$> node G)).
Proof.
  intros m nd. unfold with_nodes. simpl. rewrite lookup_fmap.
  destruct (node G !! m); simpl; [|done]. intros [= <-]. by eexists.
Qed.

(** After the call (returned or raised, once both columns were found) an
    entry is in the background of a node only if a category of the table
    that holds it propagates to the node; after a call that returned, if
    and only if. *)
Lemma set_background_sound G df entry_id category_id ecol ccol m e :
  df !! entry_id = Some ecol -> df !! category_id = Some ccol ->
  e ∈ bg_of (set_background G df entry_id category_id).1 m ->
  exists c es, (c, es) ∈ groupby ccol ecol /\ propagates G c m /\ e ∈ es.
Proof.
  intros He Hc. unfold set_background. rewrite He, Hc. intros Hin.
  destruct (groups_loop_grows (groupby ccol ecol)
    (with_nodes G (reset_background
       (Z.of_nat (size (list_to_set ecol : gset string))) <$> node G)))
    as (_ & _ & Hg).
  destruct (proj2 (Hg m) e Hin) as [Hold|(c & es & H1 & H2 & H3)].
  - rewrite bg_of_reset in Hold. by apply not_elem_of_empty in Hold.
  - exists c, es. split; [done|]. split; [|done].
    eapply (proj1 (propagates_erase _ _ _ _ (erase_reset _ G))). exact H2.
Qed.

Lemma set_background_complete G df entry_id category_id G' c es m e :
  set_background G df entry_id category_id = (G', Ok tt) ->
  (forall ecol ccol,
     df !! entry_id = Some ecol -> df !! category_id = Some ccol ->
     (c, es) ∈ groupby ccol ecol) ->
  propagates G c m -> e ∈ es ->
  e ∈ bg_of G' m.
Proof.
  unfold set_background. intros Hrun Hgroup Hm He.
  destruct (df !! entry_id) as [ecol|]; [|done].
  destruct (df !! category_id) as [ccol|]; [|done].
  pose proof (groups_loop_complete (groupby ccol ecol)
    (with_nodes G (reset_background
       (Z.of_nat (size (list_to_set ecol : gset string))) <$> node G))) as Hc.
  rewrite Hrun in Hc. simpl in Hc.
  eapply Hc; [done|by apply Hgroup| |done].
  by apply (proj2 (propagates_erase _ _ _ _ (erase_reset _ G))).
Qed.

(** After a call that returned, every node of the graph is still there and
    has a background. *)
Lemma set_background_nodes G df entry_id category_id G' m :
  set_background G df entry_id category_id = (G', Ok tt) ->
  is_Some (node G !! m) ->
  exists nd, node G' !! m = Some nd /\ attr_background nd = Some (bg_of G' m).
Proof.
  intros Hrun [nd0 Hm].
  pose proof (set_background_erase G df entry_id category_id) as He.
  rewrite Hrun in He. simpl in He.
  pose proof (erase_lookup _ _ m He) as Hl. rewrite Hm in Hl.
  destruct (node G' !! m) as [nd|] eqn:Hm'; [|done].
  exists nd. split; [done|].
  assert (Hb : is_Some (attr_background nd)).
  { unfold set_background in Hrun.
    destruct (df !! entry_id) as [ecol|]; [|done].
    destruct (df !! category_id) as [ccol|]; [|done].
    destruct (groups_loop_grows (groupby ccol ecol)
      (with_nodes G (reset_background
         (Z.of_nat (size (list_to_set ecol : gset string))) <$> node G)))
      as (_ & Hb & _).
    rewrite Hrun in Hb. simpl in Hb.
    by apply (Hb (has_backgrounds_reset _ _) m nd). }
  destruct Hb as [b Hb]. unfold bg_of. rewrite Hm'. simpl. by rewrite Hb.
Qed.

(** ** Walks *)

Lemma is_walk_cons G u p :
  is_walk G (u :: p) <->
  (forall v, head p = Some v -> v ∈ successors G u) /\ is_walk G p.
Proof.
  destruct p as [|v p]; simpl.
  - split; [|done]. intros _. split; [|done]. by intros v [=].
  - split; intros [Hv Hp]; (split; [|done]).
    + by intros ? [= <-].
    + by apply Hv.
Qed.

Lemma is_walk_app G p q :
  is_walk G (p ++ q) <->
  is_walk G p /\ is_walk G q /\
  (forall u v, last p = Some u -> head q = Some v -> v ∈ successors G u).
Proof.
  induction p as [|u p IH].
  - simpl. split; [|by intros (_ & H & _)].
    intros H. split; [done|]. split; [done|]. by intros u v [=].
  - rewrite <- app_comm_cons, !is_walk_cons, IH. clear IH.
    destruct p as [|w p].
    + simpl. split.
      * intros (Hh & _ & Hq & _). split; [split; [by intros ? [=]|done]|].
        split; [done|]. by intros ? v [= <-] ?; apply Hh.
      * intros (_ & Hq & Hl). split; [by intros v ?; apply (Hl u)|].
        split; [done|]. split; [done|]. by intros ? ? [=].
    + rewrite last_cons_cons. simpl. tauto.
Qed.

Lemma is_walk_elem_of_nodes G p x :
  wf_graph G -> is_walk G p -> (2 <= length p)%nat -> x ∈ p ->
  is_Some (node G !! x).
Proof.
  intros Hwf. induction p as [|u p IH]; intros Hw Hlen Hx; [by apply elem_of_nil in Hx|].
  destruct p as [|v p]; [simpl in Hlen; lia|].
  destruct Hw as [Huv Hw].
  apply elem_of_cons in Hx as [->|Hx]; [by apply (Hwf _ _ Huv)|].
  destruct p as [|w p].
  - apply list_elem_of_singleton in Hx as ->. by apply (Hwf _ _ Huv).
  - apply IH; [done|simpl; lia|done].
Qed.

(** ** The path search *)

(** Every listed path extends the visited prefix by new, distinct nodes
    other than the target and ends at the target. *)
Lemma simple_paths_dfs_sound G t cutoff : forall visited v path,
  last visited = Some v -> is_walk G visited ->
  path ∈ simple_paths_dfs G t cutoff visited v ->
  exists mid,
    path = visited ++ mid ++ [t] /\ is_walk G path /\
    NoDup mid /\ (t ∉ mid) /\ (forall x, x ∈ mid -> x ∉ visited).
Proof.
  induction cutoff as [|c IH]; intros visited v path Hlast Hw Hin; simpl in Hin.
  { by apply elem_of_nil in Hin. }
  apply list_elem_of_bind in Hin as (child & Hin & Hchild).
  assert (Hstep : is_walk G (visited ++ [child])).
  { apply is_walk_app. split; [done|]. split; [done|].
    intros u w Hu [= <-]. congruence. }
  case_decide as Ht.
  - apply list_elem_of_singleton in Hin as ->. subst child.
    exists []. simpl. split; [done|]. split; [done|].
    split; [constructor|]. split; [by intros ?%elem_of_nil|].
    by intros x ?%elem_of_nil.
  - case_decide as Hvis; [by apply elem_of_nil in Hin|].
    destruct (IH (visited ++ [child]) child path) as (mid & -> & Hp & Hnd & Htm & Hfresh);
      [by rewrite last_snoc|done|done|].
    exists (child :: mid). rewrite <- (assoc_L (++)) in *. simpl in *.
    split; [done|]. split; [done|]. split.
    { apply NoDup_cons. split; [|done]. intros Hc.
      apply (Hfresh child Hc). apply elem_of_app. right. by left. }
    split.
    { apply not_elem_of_cons. split; [congruence|done]. }
    intros x [->|Hx]%elem_of_cons; [done|].
    intros Hxv. apply (Hfresh x Hx). apply elem_of_app. by left.
Qed.

(** Every walk from the last visited node to the target through new,
    distinct nodes is listed, if the cutoff allows its length. *)
Lemma simple_paths_dfs_complete G t : forall mid cutoff visited v,
  last visited = Some v ->
  is_walk G (v :: mid ++ [t]) ->
  NoDup mid -> t ∉ mid -> (forall x, x ∈ mid -> x ∉ visited) ->
  (length mid < cutoff)%nat ->
  visited ++ mid ++ [t] ∈ simple_paths_dfs G t cutoff visited v.
Proof.
  induction mid as [|c mid IH]; intros cutoff visited v Hlast Hw Hnd Ht Hfresh Hlen;
    (destruct cutoff as [|cutoff]; [simpl in Hlen; lia|]); simpl.
  - apply list_elem_of_bind. exists t. simpl in Hw. destruct Hw as [Hw _].
    split; [|done]. rewrite decide_True by done. by left.
  - simpl in Hw. destruct Hw as [Hc Hw].
    apply NoDup_cons in Hnd as [Hcm Hnd].
    apply not_elem_of_cons in Ht as [Htc Ht].
    apply list_elem_of_bind. exists c. split; [|done].
    rewrite decide_False by done.
    rewrite decide_False by (apply Hfresh; by left).
    replace (visited ++ c :: mid ++ [t]) with ((visited ++ [c]) ++ mid ++ [t])
      by (by rewrite <- (assoc_L (++))).
    apply IH; [by rewrite last_snoc|done|done|done| |simpl in Hlen; lia].
    intros x Hx [Hxv|Hxc%list_elem_of_singleton]%elem_of_app.
    + apply (Hfresh x); [by right|done].
    + subst. done.
Qed.

Lemma all_simple_paths_sound G s t paths path :
  all_simple_paths G s t = Ok paths -> path ∈ paths -> simple_path G s t path.
Proof.
  unfold all_simple_paths.
  destruct (node G !! s); [|done]. destruct (node G !! t); [|done].
  intros [= <-] Hin.
  apply simple_paths_dfs_sound in Hin as (mid & -> & Hw & Hnd & Ht & Hfresh);
    [|done..].
  assert (Hs : s ∉ mid).
  { intros Hs. apply (Hfresh s Hs). by left. }
  split; [done|]. split; [done|]. split.
  { by rewrite (assoc_L (++)), last_snoc. }
  split.
  { simpl. rewrite length_app. simpl. lia. }
  assert (Htail : NoDup (mid ++ [t])).
  { apply NoDup_app. split; [done|]. split; [|apply NoDup_singleton].
    intros x Hx ->%list_elem_of_singleton. done. }
  split; [done|].
  intros Hne. simpl. apply NoDup_cons. split; [|done].
  intros [?| ->%list_elem_of_singleton]%elem_of_app; done.
Qed.

Lemma NoDup_length_le_size (m : gmap string Node) (l : list string) :
  NoDup l -> (forall x, x ∈ l -> is_Some (m !! x)) ->
  (length l <= size m)%nat.
Proof.
  intros Hnd Hin.
  rewrite <- (size_list_to_set (C := gset string) l Hnd), <- (size_dom (D := gset string) m).
  apply subseteq_size. intros x Hx%elem_of_list_to_set.
  apply elem_of_dom. by apply Hin.
Qed.

(** On a well-formed graph every walk of at least one edge that repeats no
    node is among the paths listed from its first node to its last. *)
Lemma all_simple_paths_complete G s t path :
  wf_graph G -> is_walk G path -> NoDup path ->
  head path = Some s -> last path = Some t -> (2 <= length path)%nat ->
  exists paths, all_simple_paths G s t = Ok paths /\ path ∈ paths.
Proof.
  intros Hwf Hw Hnd Hh Hl Hlen.
  assert (Hnodes : forall x, x ∈ path -> is_Some (node G !! x)).
  { intros x Hx. by apply (is_walk_elem_of_nodes G path). }
  apply head_Some in Hh as [rest ->].
  destruct rest as [|r rest]; [simpl in Hlen; lia|].
  rewrite last_cons_cons in Hl. apply last_Some in Hl as [mid Hmid].
  rewrite Hmid in *. clear Hmid r rest.
  apply NoDup_cons in Hnd as [Hs Hnd].
  apply NoDup_app in Hnd as (Hndm & Htm & _).
  unfold all_simple_paths.
  destruct (Hnodes s) as [nds ->]; [by left|].
  destruct (Hnodes t) as [ndt ->].
  { right. apply elem_of_app. right. by left. }
  eexists. split; [done|].
  apply (simple_paths_dfs_complete G t mid _ [s] s); [done|done|done| | |].
  - intros Ht. apply (Htm t Ht). by left.
  - intros x Hx ->%list_elem_of_singleton. apply Hs.
    apply elem_of_app. by left.
  - assert (Hle : (length (s :: mid ++ [t]) <= size (node G))%nat).
    { apply NoDup_length_le_size; [|done].
      apply NoDup_cons. split; [done|]. apply NoDup_app.
      split; [done|]. split; [done|apply NoDup_singleton]. }
    simpl in Hle. rewrite length_app in Hle. simpl in Hle. lia.
Qed.

(** ** Checking the graph predicates on a concrete graph *)

Lemma wf_graph_intro G : wf_graph_check G -> wf_graph G.
Proof.
  intros Hc u v Hv. unfold successors in Hv.
  destruct (adj G !! u) as [vs|] eqn:Hu; simpl in Hv;
    [|by apply elem_of_nil in Hv].
  destruct (Hc u vs Hu) as [Hnu Hvs]. split; [done|].
  by apply (proj1 (Forall_forall _ _) Hvs).
Qed.

Lemma ranked_edge G rank u v :
  ranked G rank -> v ∈ successors G u -> (rank v < rank u)%nat.
Proof.
  intros Hr Hv. unfold successors in Hv.
  destruct (adj G !! u) as [vs|] eqn:Hu; simpl in Hv;
    [|by apply elem_of_nil in Hv].
  by apply (proj1 (Forall_forall _ _) (Hr u vs Hu)).
Qed.

Lemma ranked_walk G rank u p :
  ranked G rank -> is_walk G (u :: p) ->
  forall x, x ∈ p -> (rank x < rank u)%nat.
Proof.
  intros Hr. revert u. induction p as [|v p IH]; intros u Hw x Hx.
  { by apply elem_of_nil in Hx. }
  destruct Hw as [Hv Hw]. pose proof (ranked_edge _ _ _ _ Hr Hv) as Hlt.
  apply elem_of_cons in Hx as [->|Hx]; [done|].
  pose proof (IH v Hw x Hx). lia.
Qed.

(** A graph with a rank that decreases along every edge is acyclic. *)
Lemma acyclic_intro G rank : ranked G rank -> acyclic G.
Proof.
  intros Hr p. induction p as [|u p IH]; intros Hw; [constructor|].
  apply NoDup_cons. split.
  - intros Hu. pose proof (ranked_walk _ _ _ _ Hr Hw u Hu). lia.
  - apply IH. by apply is_walk_cons in Hw as [_ Hw].
Qed.

Lemma namespace_closed_intro G : namespace_closed_check G -> namespace_closed G.
Proof.
  intros Hc u v ndu ndv Hv Hu Hnv. unfold successors in Hv.
  destruct (adj G !! u) as [vs|] eqn:Hadj; simpl in Hv;
    [|by apply elem_of_nil in Hv].
  pose proof (proj1 (Forall_forall _ _) (Hc u vs Hadj) v Hv) as Heq.
  simpl in Heq. by rewrite Hu, Hnv in Heq.
Qed.

Lemma simple_path_reaches G s t p : simple_path G s t p -> reaches G s t.
Proof. intros (Hw & Hh & Hl & _). by exists p. Qed.

Lemma rooted_intro G : rooted_check G -> rooted G.
Proof.
  intros Hc t nd Ht. pose proof (Hc t nd Ht) as Hr. simpl in Hr.
  unfold reaches_root in Hr.
  destruct (attr_namespace nd) as [ns|]; [|done].
  destruct (roots G) as [rs|]; [|done].
  destruct (rs !! ns) as [r|] eqn:Hroot; [|done].
  exists ns, rs, r. repeat split; [done|].
  case_decide as Htr.
  - subst. by exists [r].
  - destruct (all_simple_paths G t r) as [e|[|p paths]] eqn:Hp; [done..|].
    apply (simple_path_reaches G t r p).
    apply (all_simple_paths_sound G t r (p :: paths)); [done|by left].
Qed.

(** ** Categories that do not reach their root *)

Lemma term_paths_unreachable G c nd ns rs root :
  node G !! c = Some nd -> attr_namespace nd = Some ns ->
  roots G = Some rs -> rs !! ns = Some root ->
  is_Some (node G !! root) ->
  (forall p, ~ simple_path G c root p) ->
  term_paths G c = Ok [].
Proof.
  intros Hc Hns Hrs Hroot [ndr Hr] Hno.
  unfold term_paths. rewrite Hc, Hns, Hrs, Hroot.
  destruct (all_simple_paths G c root) as [e|[|p paths]] eqn:Hp; [|done|].
  - unfold all_simple_paths in Hp. by rewrite Hc, Hr in Hp.
  - destruct (Hno p).
    apply (all_simple_paths_sound G c root (p :: paths)); [done|by left].
Qed.

(** C10 (counterexample).  The term [c] exists, its namespace has the
    configured root [nowhere], and no simple path leads from [c] to it; but
    [nowhere] is not a node of the graph, and line 58 raises
    [NetworkXError]: the step for the category raises, and so does the
    call. *)
Lemma C10_counterexample :
  let G := dangling_root_graph in
  node G !! "c" = Some (bare_node "bp") /\
  attr_namespace (bare_node "bp") = Some "bp" /\
  roots G = Some {["bp" := "nowhere"]} /\
  ({["bp" := "nowhere"]} : gmap string string) !! "bp" = Some "nowhere" /\
  (forall p, ~ simple_path G "c" "nowhere" p) /\
  group_step G "c" ["g1"]
  = (G, Raise (NetworkXError "target node not in graph")) /\
  (set_background G dangling_root_table "gene" "go").2
  = Raise (NetworkXError "target node not in graph").
Proof.
  intros G. split; [by vm_compute|]. split; [done|]. split; [done|].
  split; [by vm_compute|]. split.
  { intros p (Hw & Hh & _ & Hlen & _).
    destruct p as [|u [|v p]]; simpl in Hlen; [lia..|].
    injection Hh as ->. destruct Hw as [Hv _].
    vm_compute in Hv. by apply elem_of_nil in Hv. }
  split; by vm_compute.
Qed.

(** C10 (amended).  Let [c] be a term of the graph whose namespace has a
    configured root, itself a node of the graph, to which no simple path
    leads from [c].  Then the step of [set_background] for the category [c] changes
    nothing and raises nothing, in every state the call can be in; and
    whatever entry a node's background holds after a call was put there by
    another category, one that does reach the node.  (This covers a
    category annotated at the root itself on an acyclic graph.) *)
Theorem C10_unreachable_root_drops_annotations G c nd ns rs root :
  node G !! c = Some nd -> attr_namespace nd = Some ns ->
  roots G = Some rs -> rs !! ns = Some root ->
  is_Some (node G !! root) ->
  (forall p, ~ simple_path G c root p) ->
  (forall G0 entries,
     erase G0 = erase G -> group_step G0 c entries = (G0, Ok tt)) /\
  (forall df entry_id category_id ecol ccol m ndm b e,
     df !! entry_id = Some ecol -> df !! category_id = Some ccol ->
     node (set_background G df entry_id category_id).1 !! m = Some ndm ->
     attr_background ndm = Some b -> e ∈ b ->
     exists c' es,
       c' ≠ c /\ (c', es) ∈ groupby ccol ecol /\ e ∈ es /\ propagates G c' m).
Proof.
  intros Hc Hns Hrs Hroot Hr Hno.
  pose proof (term_paths_unreachable _ _ _ _ _ _ Hc Hns Hrs Hroot Hr Hno) as Hp.
  split.
  - intros G0 entries He. unfold group_step.
    by rewrite (term_paths_erase _ _ c He), Hp.
  - intros df entry_id category_id ecol ccol m ndm b e Hecol Hccol Hm Hb He.
    destruct (set_background_sound G df entry_id category_id ecol ccol m e)
      as (c' & es & Hin & Hprop & Hes); [done..| |].
    { unfold bg_of. rewrite Hm. simpl. by rewrite Hb. }
    exists c', es. repeat split; [|done..].
    intros ->. destruct Hprop as (paths & p & Hpaths & Hin' & _).
    rewrite Hp in Hpaths. injection Hpaths as <-.
    by apply elem_of_nil in Hin'.
Qed.

Lemma C10_witness :
  group_step isolated_graph "c" ["g1"] = (isolated_graph, Ok tt).
Proof.
  assert (Hc : node isolated_graph !! "c" = Some (bare_node "bp"))
    by (vm_compute; reflexivity).
  assert (Hns : attr_namespace (bare_node "bp") = Some "bp") by reflexivity.
  assert (Hrs : roots isolated_graph = Some {["bp" := "root"]}) by reflexivity.
  assert (Hroot : ({["bp" := "root"]} : gmap string string) !! "bp" = Some "root")
    by (vm_compute; reflexivity).
  assert (Hr : is_Some (node isolated_graph !! "root"))
    by (exists (bare_node "bp"); vm_compute; reflexivity).
  assert (Hno : forall p, ~ simple_path isolated_graph "c" "root" p).
  { intros p (Hw & Hh & _ & Hlen & _).
    destruct p as [|u [|v p]]; simpl in Hlen; [lia..|].
    injection Hh as ->. destruct Hw as [Hv _].
    vm_compute in Hv. by apply elem_of_nil in Hv. }
  exact (proj1 (C10_unreachable_root_drops_annotations isolated_graph "c"
                  (bare_node "bp") "bp" {["bp" := "root"]} "root"
                  Hc Hns Hrs Hroot Hr Hno)
           isolated_graph ["g1"] eq_refl).
Defined.

(** ** Propagation along an edge *)

(** Along a walk the namespace does not change. *)
Lemma walk_namespace G : forall p s nds,
  wf_graph G -> namespace_closed G -> is_walk G p ->
  head p = Some s -> node G !! s = Some nds ->
  forall x, x ∈ p -> exists ndx,
    node G !! x = Some ndx /\ attr_namespace ndx = attr_namespace nds.
Proof.
  induction p as [|u p IH]; intros s nds Hwf Hns Hw Hh Hs x Hx.
  { by apply elem_of_nil in Hx. }
  injection Hh as ->.
  apply elem_of_cons in Hx as [->|Hx]; [by exists nds|].
  destruct p as [|v p]; [by apply elem_of_nil in Hx|].
  destruct Hw as [Hv Hw].
  destruct (Hwf _ _ Hv) as [_ [ndv Hndv]].
  destruct (IH v ndv Hwf Hns Hw eq_refl Hndv x Hx) as (ndx & Hndx & Hnsx).
  exists ndx. split; [done|]. rewrite Hnsx. symmetry.
  by apply (Hns s v).
Qed.

(** On a well-formed acyclic graph whose terms reach the root of their
    namespace and whose edges stay inside a namespace, a category that
    propagates to a node propagates to each of its parents. *)
Lemma propagates_edge G c child parent :
  wf_graph G -> acyclic G -> rooted G -> namespace_closed G ->
  propagates G c child -> parent ∈ successors G child ->
  propagates G c parent.
Proof.
  intros Hwf Hac Hroot Hns (paths & path & Htp & Hpath & Hchild) Hedge.
  pose proof Htp as Htp0. unfold term_paths in Htp.
  destruct (node G !! c) as [ndc|] eqn:Hc; [|done].
  destruct (attr_namespace ndc) as [ns|] eqn:Hnsc; [|done].
  destruct (roots G) as [rs|] eqn:Hrs; [|done].
  destruct (rs !! ns) as [root|] eqn:Hr; [|done].
  destruct (all_simple_paths_sound _ _ _ _ _ Htp Hpath)
    as (Hw & Hh & Hl & Hlen & _).
  (* the parent reaches the same root *)
  destruct (walk_namespace G path c ndc Hwf Hns Hw Hh Hc child Hchild)
    as (ndch & Hndch & Hnsch).
  destruct (Hwf _ _ Hedge) as [_ [ndp Hndp]].
  pose proof (Hns _ _ _ _ Hedge Hndch Hndp) as Hnsp.
  destruct (Hroot parent ndp Hndp) as (ns' & rs' & r' & Hns' & Hrs' & Hr' & Hreach).
  assert (ns' = ns) as -> by congruence.
  assert (rs' = rs) as -> by congruence.
  assert (r' = root) as -> by congruence.
  destruct Hreach as (wp & Hwp & Hhp & Hlp).
  (* the walk through the parent *)
  apply list_elem_of_split in Hchild as (pre & post & ->).
  set (W := (pre ++ [child]) ++ wp).
  assert (HwW : is_walk G W).
  { apply is_walk_app. split; [|split; [done|]].
    - replace (pre ++ child :: post) with ((pre ++ [child]) ++ post) in Hw
        by (by rewrite <- (assoc_L (++))).
      by apply is_walk_app in Hw as [Hw _].
    - intros u v Hu Hv. rewrite last_snoc in Hu. congruence. }
  assert (HhW : head W = Some c).
  { unfold W. destruct pre as [|x pre]; simpl in *; congruence. }
  assert (HlW : last W = Some root).
  { unfold W. rewrite last_app. by rewrite Hlp. }
  assert (HlenW : (2 <= length W)%nat).
  { unfold W. rewrite !length_app. simpl.
    destruct wp; [done|simpl; lia]. }
  destruct (all_simple_paths_complete G c root W Hwf HwW (Hac W HwW) HhW HlW HlenW)
    as (paths' & Hpaths' & HW).
  assert (paths' = paths) as -> by congruence.
  exists paths, W. split; [done|]. split; [done|].
  unfold W. apply elem_of_app. right.
  apply head_Some in Hhp as [wp' ->]. by left.
Qed.

(** On graphs whose edges stay inside a namespace. *)
Lemma background_monotone_within_namespaces G df entry_id category_id G' :
  wf_graph G -> acyclic G -> rooted G -> namespace_closed G ->
  set_background G df entry_id category_id = (G', Ok tt) ->
  forall child parent, parent ∈ successors G child ->
    bg_of G' child ⊆ bg_of G' parent.
Proof.
  intros Hwf Hac Hroot Hns Hrun child parent Hedge e He.
  assert (Hcols : exists ecol ccol,
    df !! entry_id = Some ecol /\ df !! category_id = Some ccol).
  { unfold set_background in Hrun.
    destruct (df !! entry_id) as [ecol|]; [|done].
    destruct (df !! category_id) as [ccol|]; [|done]. eauto. }
  destruct Hcols as (ecol & ccol & Hecol & Hccol).
  destruct (set_background_sound G df entry_id category_id ecol ccol child e)
    as (c & es & Hin & Hprop & Hes); [done..|by rewrite Hrun|].
  apply (set_background_complete G df entry_id category_id G' c es); [done| | |done].
  - intros ecol' ccol' He' Hc'. congruence.
  - by apply (propagates_edge G c child parent).
Qed.

(** On a well-formed acyclic graph in which every term reaches the root of
    its namespace and no other root, a category that propagates to a node
    propagates to each of its parents: the parent reaches its own root,
    so the child reaches it too, and it is the root the child lies on the
    way to. *)
Lemma propagates_edge_one_root G c child parent :
  wf_graph G -> acyclic G -> rooted G -> one_root G ->
  propagates G c child -> parent ∈ successors G child ->
  propagates G c parent.
Proof.
  intros Hwf Hac Hroot Hone (paths & path & Htp & Hpath & Hchild) Hedge.
  pose proof Htp as Htp0. unfold term_paths in Htp.
  destruct (node G !! c) as [ndc|] eqn:Hc; [|done].
  destruct (attr_namespace ndc) as [ns|] eqn:Hnsc; [|done].
  destruct (roots G) as [rs|] eqn:Hrs; [|done].
  destruct (rs !! ns) as [root|] eqn:Hr; [|done].
  destruct (all_simple_paths_sound _ _ _ _ _ Htp Hpath)
    as (Hw & Hh & Hl & Hlen & _).
  apply list_elem_of_split in Hchild as (pre & post & ->).
  replace (pre ++ child :: post) with ((pre ++ [child]) ++ post) in Hw, Hl
    by (by rewrite <- (assoc_L (++))).
  apply is_walk_app in Hw as (Hwpre & Hwpost & Hjoin).
  (* the child reaches the root of the category *)
  assert (Hchild_root : reaches G child root).
  { exists (child :: post). split; [|split; [done|]].
    - apply is_walk_cons. split; [|done].
      intros v Hv. apply (Hjoin child v); [by rewrite last_snoc|done].
    - rewrite last_app in Hl. rewrite last_snoc in Hl.
      rewrite last_cons. by destruct (last post). }
  (* the parent reaches its own root, hence so does the child *)
  destruct (Hwf _ _ Hedge) as [_ [ndp Hndp]].
  destruct (Hroot parent ndp Hndp)
    as (ns' & rs' & r' & Hns' & Hrs' & Hr' & (wp & Hwp & Hhp & Hlp)).
  assert (Hchild_r' : reaches G child r').
  { exists (child :: wp). split; [|split; [done|]].
    - apply is_walk_cons. split; [|done]. intros v Hv. congruence.
    - rewrite last_cons, Hlp. done. }
  assert (r' = root) as ->.
  { apply (Hone child); [by exists rs', ns'|by exists rs, ns|done..]. }
  (* the walk through the parent *)
  set (W := (pre ++ [child]) ++ wp).
  assert (HwW : is_walk G W).
  { apply is_walk_app. split; [done|]. split; [done|].
    intros u v Hu Hv. rewrite last_snoc in Hu. congruence. }
  assert (HhW : head W = Some c).
  { unfold W. destruct pre as [|x pre]; simpl in *; congruence. }
  assert (HlW : last W = Some root).
  { unfold W. rewrite last_app. by rewrite Hlp. }
  assert (HlenW : (2 <= length W)%nat).
  { unfold W. rewrite !length_app. simpl.
    destruct wp; [done|simpl; lia]. }
  destruct (all_simple_paths_complete G c root W Hwf HwW (Hac W HwW) HhW HlW HlenW)
    as (paths' & Hpaths' & HW).
  assert (paths' = paths) as -> by congruence.
  exists paths, W. split; [done|]. split; [done|].
  unfold W. apply elem_of_app. right.
  apply head_Some in Hhp as [wp' ->]. by left.
Qed.

(** Outside that invariant the inclusion can fail.  In [cross_graph] the
    term [child] reaches the roots of both namespaces; after the call its
    background holds [g1] and the background of its parent [p], of the
    other namespace, is empty. *)
Lemma cross_namespace_edge :
  let r := set_background cross_graph cross_table "gene" "go" in
  wf_graph cross_graph /\ acyclic cross_graph /\ rooted cross_graph /\
  ~ one_root cross_graph /\
  r.2 = Ok tt /\ "p" ∈ successors cross_graph "child" /\
  attr_background <$> node r.1 !! "child" = Some (Some {["g1"]}) /\
  attr_background <$> node r.1 !! "p" = Some (Some ∅).
Proof.
  intros r.
  split. { apply wf_graph_intro; apply (bool_decide_unpack _); by vm_compute. }
  split. { apply (acyclic_intro _ cross_rank); apply (bool_decide_unpack _); by vm_compute. }
  split. { apply rooted_intro; apply (bool_decide_unpack _); by vm_compute. }
  split.
  { intros Hone.
    assert (Hr1 : is_root cross_graph "r1").
    { eexists _, "bp". split; [reflexivity|]. by vm_compute. }
    assert (Hr2 : is_root cross_graph "r2").
    { eexists _, "mf". split; [reflexivity|]. by vm_compute. }
    assert (H1 : reaches cross_graph "child" "r1").
    { exists ["child"; "r1"]. split; [|done]. simpl. split; [|done].
      apply (bool_decide_unpack _). by vm_compute. }
    assert (H2 : reaches cross_graph "child" "r2").
    { exists ["child"; "p"; "r2"]. split; [|done]. simpl.
      split; [|split; [|done]]; apply (bool_decide_unpack _); by vm_compute. }
    discriminate (Hone "child" "r1" "r2" Hr1 Hr2 H1 H2). }
  split. { by vm_compute. }
  split. { apply (bool_decide_unpack _). by vm_compute. }
  split; by vm_compute.
Qed.

(** C4.  On a directed acyclic graph in which every term reaches the root
    of its namespace, and no other namespace root (the invariant of the
    data model: exactly one namespace root per term), after a call of
    [set_background] that returned, along every edge from a child to a
    parent both nodes have a background and the parent's contains the
    child's.  ([wf_graph] is the invariant of networkx: the ends of an
    edge are nodes.) *)
Theorem C4_background_monotone G df entry_id category_id G' :
  wf_graph G -> acyclic G -> rooted G -> one_root G ->
  set_background G df entry_id category_id = (G', Ok tt) ->
  forall child parent, parent ∈ successors G child ->
    exists ndc ndp bc bp,
      node G' !! child = Some ndc /\ node G' !! parent = Some ndp /\
      attr_background ndc = Some bc /\ attr_background ndp = Some bp /\
      bc ⊆ bp.
Proof.
  intros Hwf Hac Hroot Hone Hrun child parent Hedge.
  destruct (Hwf _ _ Hedge) as [Hc Hp].
  destruct (set_background_nodes _ _ _ _ _ _ Hrun Hc) as (ndc & Hndc & Hbc).
  destruct (set_background_nodes _ _ _ _ _ _ Hrun Hp) as (ndp & Hndp & Hbp).
  exists ndc, ndp, (bg_of G' child), (bg_of G' parent).
  do 4 (split; [done|]). intros e He.
  assert (Hcols : exists ecol ccol,
    df !! entry_id = Some ecol /\ df !! category_id = Some ccol).
  { unfold set_background in Hrun.
    destruct (df !! entry_id) as [ecol|]; [|done].
    destruct (df !! category_id) as [ccol|]; [|done]. eauto. }
  destruct Hcols as (ecol & ccol & Hecol & Hccol).
  destruct (set_background_sound G df entry_id category_id ecol ccol child e)
    as (c & es & Hin & Hprop & Hes); [done..|by rewrite Hrun|].
  apply (set_background_complete G df entry_id category_id G' c es); [done| | |done].
  - intros ecol' ccol' He' Hc'. congruence.
  - by apply (propagates_edge_one_root G c child parent).
Qed.

Lemma C4_witness :
  exists ndc ndp bc bp,
    node (set_background diamond_graph diamond_table "gene" "go").1 !! "leaf"
      = Some ndc /\
    node (set_background diamond_graph diamond_table "gene" "go").1 !! "a"
      = Some ndp /\
    attr_background ndc = Some bc /\ attr_background ndp = Some bp /\
    bc ⊆ bp.
Proof.
  assert (Hwf : wf_graph diamond_graph).
  { apply wf_graph_intro; apply (bool_decide_unpack _); by vm_compute. }
  assert (Hac : acyclic diamond_graph).
  { apply (acyclic_intro _ diamond_rank); apply (bool_decide_unpack _); by vm_compute. }
  assert (Hroot : rooted diamond_graph).
  { apply rooted_intro; apply (bool_decide_unpack _); by vm_compute. }
  assert (Hone : one_root diamond_graph).
  { assert (Honly : forall r, is_root diamond_graph r -> r = "root").
    { intros r (rs & ns & Hrs & Hr). injection Hrs as <-.
      by apply lookup_singleton_Some in Hr as [_ <-]. }
    intros t r1 r2 H1 H2 _ _. by rewrite (Honly r1 H1), (Honly r2 H2). }
  assert (Hrun : set_background diamond_graph diamond_table "gene" "go"
                 = ((set_background diamond_graph diamond_table "gene" "go").1,
                    Ok tt)) by (vm_compute; reflexivity).
  assert (Hedge : "a" ∈ successors diamond_graph "leaf").
  { apply (bool_decide_unpack _). by vm_compute. }
  exact (C4_background_monotone diamond_graph diamond_table "gene" "go" _
           Hwf Hac Hroot Hone Hrun "leaf" "a" Hedge).
Defined.

Lemma C8_witness :
  set_background (set_background diamond_graph diamond_table "gene" "go").1
    other_table "gene" "go"
  = set_background diamond_graph other_table "gene" "go".
Proof.
  assert (Hcol : is_Some (other_table !! "gene")).
  { exists ["h1"; "h2"]. vm_compute. reflexivity. }
  exact (proj2 (C8_set_background_idempotent diamond_graph diamond_table
                  "gene" "go") other_table "gene" "go" Hcol).
Defined.

(** * Further properties of set_background *)

(** ** The groups are the rows *)

Lemma group_insert_pairs k e gs c x :
  (exists es, (c, es) ∈ group_insert k e gs /\ x ∈ es) <->
  (c = k /\ x = e) \/ (exists es, (c, es) ∈ gs /\ x ∈ es).
Proof.
  induction gs as [|[k' es'] gs IH]; simpl.
  - split.
    + intros (es & Hin & Hx). apply list_elem_of_singleton in Hin.
      injection Hin as -> ->. apply list_elem_of_singleton in Hx. by left.
    + intros [[-> ->]|(es & Hin & _)]; [|by apply elem_of_nil in Hin].
      exists [e]. split; by apply list_elem_of_singleton.
  - destruct (String.compare k k') eqn:Hcmp.
    + apply String.compare_eq_iff in Hcmp as ->. split.
      * intros (es & [Heq|Hin]%elem_of_cons & Hx).
        -- injection Heq as -> ->.
           apply elem_of_app in Hx as [Hx|Hx%list_elem_of_singleton].
           ++ right. exists es'. split; [by left|done].
           ++ by left.
        -- right. exists es. split; [by right|done].
      * intros [[-> ->]|(es & [Heq|Hin]%elem_of_cons & Hx)].
        -- exists (es' ++ [e]). split; [by left|].
           apply elem_of_app. right. by apply list_elem_of_singleton.
        -- injection Heq as -> ->. exists (es' ++ [e]). split; [by left|].
           apply elem_of_app. by left.
        -- exists es. split; [by right|done].
    + split.
      * intros (es & [Heq|Hin]%elem_of_cons & Hx).
        -- injection Heq as -> ->. apply list_elem_of_singleton in Hx. by left.
        -- right. by exists es.
      * intros [[-> ->]|(es & Hin & Hx)].
        -- exists [e]. split; [by left|by apply list_elem_of_singleton].
        -- exists es. split; [by right|done].
    + split.
      * intros (es & [Heq|Hin]%elem_of_cons & Hx).
        -- right. exists es. split; [rewrite Heq; by left|done].
        -- destruct (proj1 IH) as [H|(es0 & H0 & H1)]; [by exists es|by left|].
           right. exists es0. split; [by right|done].
      * intros [H|(es & [Heq|Hin]%elem_of_cons & Hx)].
        -- destruct (proj2 IH (or_introl H)) as (es & H0 & H1).
           exists es. split; [by right|done].
        -- exists es. split; [rewrite Heq; by left|done].
        -- destruct (proj2 IH) as (es0 & H0 & H1).
           { right. by exists es. }
           exists es0. split; [by right|done].
Qed.

Lemma groupby_fold_pairs kvs : forall gs c x,
  (exists es,
     (c, es) ∈ foldl (fun gs kv => group_insert kv.1 kv.2 gs) gs kvs /\
     x ∈ es) <->
  (c, x) ∈ kvs \/ (exists es, (c, es) ∈ gs /\ x ∈ es).
Proof.
  induction kvs as [|[k e] kvs IH]; intros gs c x; simpl.
  - split; [by right|]. intros [H|H]; [by apply elem_of_nil in H|done].
  - rewrite IH, group_insert_pairs. split.
    + intros [H|[[-> ->]|H]]; [left; by right|left; by left|by right].
    + intros [[Heq|H]%elem_of_cons|H]; [|by left|right; by right].
      injection Heq as -> ->. right. by left.
Qed.

(** Grouping loses no row and invents none: an entry is in
    the group of a category exactly when the table has that row. *)
Lemma groupby_rows ccol ecol c x :
  (exists es, (c, es) ∈ groupby ccol ecol /\ x ∈ es) <->
  (c, x) ∈ rows ccol ecol.
Proof.
  unfold groupby, rows. rewrite groupby_fold_pairs. split; [|by left].
  intros [H|(es & H & _)]; [done|by apply elem_of_nil in H].
Qed.

(** ** What the loops write *)

Lemma bg_writes_trans G1 G2 G3 :
  bg_writes G1 G2 -> bg_writes G2 G3 -> bg_writes G1 G3.
Proof.
  intros H12 H23. induction H12 as [|G n nd b G' Hn _ IH]; [done|].
  eapply bg_writes_step; [done|]. by apply IH.
Qed.

Lemma path_loop_writes es path : forall G,
  bg_writes G (path_loop es path G).1.
Proof.
  induction path as [|n path IH]; intros G; simpl; [constructor|].
  destruct (node G !! n) as [nd|] eqn:Hn; [|constructor].
  destruct (attr_background nd) as [b|]; [|constructor].
  eapply bg_writes_step; [done|apply IH].
Qed.

Lemma paths_loop_writes es paths : forall G,
  bg_writes G (paths_loop es paths G).1.
Proof.
  induction paths as [|path paths IH]; intros G; simpl; [constructor|].
  pose proof (path_loop_writes es path G) as Hstep.
  destruct (path_loop es path G) as [G1 [e|[]]]; simpl in *; [done|].
  eapply bg_writes_trans; [done|apply IH].
Qed.

Lemma groups_loop_writes groups : forall G,
  bg_writes G (groups_loop groups G).1.
Proof.
  induction groups as [|[c es] groups IH]; intros G; simpl; [constructor|].
  assert (Hstep : bg_writes G (group_step G c es).1).
  { unfold group_step. destruct (term_paths G c); [constructor|].
    apply paths_loop_writes. }
  destruct (group_step G c es) as [G1 [e|[]]]; simpl in *; [done|].
  eapply bg_writes_trans; [done|apply IH].
Qed.

(** X1.  Whatever its outcome, [set_background] writes nothing but the
    attributes [background] and [M]: edges, roots and correction metadata
    are as before, no node is added or removed, and on every node the
    namespace and every query attribute are as before. *)
Theorem set_background_frame G df entry_id category_id :
  let G' := (set_background G df entry_id category_id).1 in
  adj G' = adj G /\ roots G' = roots G /\
  mtc_method G' = mtc_method G /\ mtc_alpha G' = mtc_alpha G /\
  forall m,
    match node G !! m, node G' !! m with
    | Some nd, Some nd' =>
        attr_namespace nd' = attr_namespace nd /\
        attr_query nd' = attr_query nd /\ attr_n nd' = attr_n nd /\
        attr_N nd' = attr_N nd /\ attr_hits nd' = attr_hits nd /\
        attr_x nd' = attr_x nd /\ attr_p nd' = attr_p nd /\
        attr_q nd' = attr_q nd /\
        attr_significant nd' = attr_significant nd
    | None, None => True
    | _, _ => False
    end.
Proof.
  intros G'. pose proof (set_background_erase G df entry_id category_id) as He.
  fold G' in He.
  split; [exact (f_equal adj He)|]. split; [exact (f_equal roots He)|].
  split; [exact (f_equal mtc_method He)|].
  split; [exact (f_equal mtc_alpha He)|].
  intros m. pose proof (erase_lookup _ _ m He) as Hm.
  destruct (node G !! m) as [nd|], (node G' !! m) as [nd'|]; simpl in Hm;
    try done.
  apply (inj Some) in Hm.
  repeat split;
    [exact (f_equal attr_namespace Hm)|exact (f_equal attr_query Hm)
    |exact (f_equal attr_n Hm)|exact (f_equal attr_N Hm)
    |exact (f_equal attr_hits Hm)|exact (f_equal attr_x Hm)
    |exact (f_equal attr_p Hm)|exact (f_equal attr_q Hm)
    |exact (f_equal attr_significant Hm)].
Qed.

(** After the reset of lines 49-52 and any writes of backgrounds, every
    node carries the [M] of the reset and a background. *)
Lemma reset_then_writes M G G' m nd' :
  bg_writes (with_nodes G (reset_background M <$> node G)) G' ->
  node G' !! m = Some nd' ->
  attr_M nd' = Some M /\ is_Some (attr_background nd').
Proof.
  set (G1 := with_nodes G (reset_background M <$> node G)).
  intros Hw Hm.
  assert (Hall : forall k nd, node G1 !! k = Some nd ->
            attr_M nd = Some M /\ is_Some (attr_background nd)).
  { intros k nd. unfold G1, with_nodes. simpl. rewrite lookup_fmap.
    destruct (node G !! k); simpl; [|done]. intros [= <-]. split; [done|].
    by eexists. }
  clearbody G1. revert m nd' Hm.
  induction Hw as [|H n nd b H' Hn _ IH]; [done|].
  apply IH. intros k ndk. simpl.
  destruct (decide (k = n)) as [->|Hne].
  - rewrite lookup_insert_eq. intros [= <-]. simpl.
    split; [by apply (Hall n nd)|by eexists].
  - rewrite lookup_insert_ne by done. apply Hall.
Qed.

Lemma set_background_writes G df entry_id category_id ecol :
  df !! entry_id = Some ecol ->
  bg_writes
    (with_nodes G (reset_background
       (Z.of_nat (size (list_to_set ecol : gset string))) <$> node G))
    (set_background G df entry_id category_id).1.
Proof.
  intros He. unfold set_background. rewrite He.
  destruct (df !! category_id); [apply groups_loop_writes|constructor].
Qed.

(** X2.  As soon as the entry column exists, whatever the outcome of the
    call, every node of the graph carries the same [M], the number of
    distinct entries of the table, and has a background. *)
Theorem set_background_M G df entry_id category_id ecol m nd' :
  df !! entry_id = Some ecol ->
  node (set_background G df entry_id category_id).1 !! m = Some nd' ->
  attr_M nd' = Some (Z.of_nat (size (list_to_set ecol : gset string))) /\
  is_Some (attr_background nd').
Proof.
  intros He Hm.
  by apply (reset_then_writes _ G _ m nd'
              (set_background_writes G df entry_id category_id ecol He)).
Qed.

Lemma set_background_M_witness :
  attr_M (mkNode (Some "bp") (Some {["g1"]}) (Some 3)
            None None None None None None None None) = Some 3 /\
  is_Some (attr_background
             (mkNode (Some "bp") (Some {["g1"]}) (Some 3)
                None None None None None None None None)).
Proof.
  assert (He : diamond_table !! "gene" = Some ["g1"; "g2"; "g3"])
    by (vm_compute; reflexivity).
  assert (Hm : node (set_background diamond_graph diamond_table "gene" "go").1
                 !! "leaf"
               = Some (mkNode (Some "bp") (Some {["g1"]}) (Some 3)
                         None None None None None None None None))
    by (vm_compute; reflexivity).
  exact (set_background_M diamond_graph diamond_table "gene" "go"
           ["g1"; "g2"; "g3"] "leaf" _ He Hm).
Defined.

(** X3.  As soon as the entry column exists, whatever the outcome of the
    call, the background of every node holds only entries of the table,
    so its size [n] is at most [M]. *)
Theorem set_background_n_le_M G df entry_id category_id ecol m nd' b :
  df !! entry_id = Some ecol ->
  node (set_background G df entry_id category_id).1 !! m = Some nd' ->
  attr_background nd' = Some b ->
  b ⊆ list_to_set ecol /\
  attr_M nd' = Some (Z.of_nat (size (list_to_set ecol : gset string))) /\
  Z.of_nat (size b) <= Z.of_nat (size (list_to_set ecol : gset string)).
Proof.
  intros He Hm Hb.
  assert (Hsub : b ⊆ list_to_set ecol).
  { intros e Hin.
    destruct (df !! category_id) as [ccol|] eqn:Hc.
    - destruct (set_background_sound G df entry_id category_id ecol ccol m e)
        as (c & es & Hg & _ & Hes); [done..| |].
      { unfold bg_of. rewrite Hm. simpl. by rewrite Hb. }
      assert (Hrow : (c, e) ∈ rows ccol ecol).
      { apply groupby_rows. by exists es. }
      apply elem_of_list_to_set. unfold rows in Hrow.
      by apply elem_of_zip_r in Hrow.
    - unfold set_background in Hm. rewrite He, Hc in Hm. simpl in Hm.
      rewrite lookup_fmap in Hm.
      destruct (node G !! m); simpl in Hm; [|done].
      injection Hm as <-. simpl in Hb. injection Hb as <-.
      by apply not_elem_of_empty in Hin. }
  split; [done|]. split.
  - by apply (reset_then_writes _ G _ m nd'
                (set_background_writes G df entry_id category_id ecol He)).
  - apply inj_le. by apply subseteq_size.
Qed.

Lemma set_background_n_le_M_witness :
  ({["g1"; "g2"]} : gset string) ⊆ list_to_set ["g1"; "g2"; "g3"] /\
  attr_M (mkNode (Some "bp") (Some {["g1"; "g2"]}) (Some 3)
            None None None None None None None None)
  = Some (Z.of_nat (size (list_to_set ["g1"; "g2"; "g3"] : gset string))) /\
  Z.of_nat (size ({["g1"; "g2"]} : gset string))
  <= Z.of_nat (size (list_to_set ["g1"; "g2"; "g3"] : gset string)).
Proof.
  assert (He : diamond_table !! "gene" = Some ["g1"; "g2"; "g3"])
    by (vm_compute; reflexivity).
  assert (Hm : node (set_background diamond_graph diamond_table "gene" "go").1
                 !! "a"
               = Some (mkNode (Some "bp") (Some {["g1"; "g2"]}) (Some 3)
                         None None None None None None None None))
    by (vm_compute; reflexivity).
  exact (set_background_n_le_M diamond_graph diamond_table "gene" "go"
           ["g1"; "g2"; "g3"] "a" _ {["g1"; "g2"]} He Hm eq_refl).
Defined.

(** ** When set_background returns *)

Lemma erase_is_Some G G' n :
  erase G' = erase G -> is_Some (node G !! n) -> is_Some (node G' !! n).
Proof.
  intros He [nd Hn]. pose proof (erase_lookup _ _ n He) as Hl.
  rewrite Hn in Hl. destruct (node G' !! n); [by eexists|done].
Qed.

Lemma wf_graph_erase G G' : erase G' = erase G -> wf_graph G -> wf_graph G'.
Proof.
  intros He Hwf u v Hv. unfold successors in Hv.
  rewrite (erase_adj _ _ He) in Hv. destruct (Hwf u v Hv) as [Hu Hv'].
  split; by apply (erase_is_Some G G').
Qed.

Lemma path_loop_returns es path : forall G,
  has_backgrounds G -> (forall n, n ∈ path -> is_Some (node G !! n)) ->
  (path_loop es path G).2 = Ok tt.
Proof.
  induction path as [|n path IH]; intros G Hbg Hnodes; simpl; [done|].
  destruct (Hnodes n) as [nd Hn]; [by left|]. rewrite Hn.
  destruct (Hbg n nd Hn) as [b Hb]. rewrite Hb.
  destruct (grows_union G n nd b es Hn Hb) as (He & Hbg' & _).
  apply IH; [by apply Hbg'|].
  intros k Hk. apply (erase_is_Some G); [done|]. apply Hnodes. by right.
Qed.

Lemma paths_loop_returns es paths : forall G,
  has_backgrounds G ->
  (forall path n, path ∈ paths -> n ∈ path -> is_Some (node G !! n)) ->
  (paths_loop es paths G).2 = Ok tt.
Proof.
  induction paths as [|path paths IH]; intros G Hbg Hnodes; simpl; [done|].
  pose proof (path_loop_returns es path G Hbg) as Hret.
  destruct (path_loop_grows es path G) as (He & Hbg' & _).
  destruct (path_loop es path G) as [G1 [e|[]]]; simpl in *.
  - rewrite Hret in *; [done|]. intros n Hn. apply (Hnodes path); [by left|done].
  - apply IH; [by apply Hbg'|].
    intros p n Hp Hn. apply (erase_is_Some G); [done|].
    apply (Hnodes p); [by right|done].
Qed.

Lemma term_paths_nodes G c paths path n :
  wf_graph G -> term_paths G c = Ok paths -> path ∈ paths -> n ∈ path ->
  is_Some (node G !! n).
Proof.
  intros Hwf Htp Hpath Hn. unfold term_paths in Htp.
  destruct (node G !! c) as [ndc|]; [|done].
  destruct (attr_namespace ndc) as [ns|]; [|done].
  destruct (roots G) as [rs|]; [|done].
  destruct (rs !! ns) as [root|]; [|done].
  destruct (all_simple_paths_sound _ _ _ _ _ Htp Hpath)
    as (Hw & _ & _ & Hlen & _).
  by apply (is_walk_elem_of_nodes G path).
Qed.

Lemma term_paths_resolvable G c :
  (exists paths, term_paths G c = Ok paths) <-> resolvable G c.
Proof.
  unfold resolvable, term_paths, all_simple_paths. split.
  - intros [paths Hp].
    destruct (node G !! c) as [nd|] eqn:Hc; [|done].
    destruct (attr_namespace nd) as [ns|] eqn:Hns; [|done].
    destruct (roots G) as [rs|]; [|done].
    destruct (rs !! ns) as [root|] eqn:Hr; [|done].
    destruct (node G !! root) as [ndr|] eqn:Hroot; [|done].
    exists nd, ns, rs, root. rewrite Hroot. eauto 10.
  - intros (nd & ns & rs & root & Hc & Hns & Hrs & Hr & [ndr Hroot]).
    rewrite Hc, Hns, Hrs, Hr, Hroot. by eexists.
Qed.

Lemma groups_loop_returns groups : forall G,
  wf_graph G -> has_backgrounds G ->
  (groups_loop groups G).2 = Ok tt <->
  (forall c es, (c, es) ∈ groups -> exists paths, term_paths G c = Ok paths).
Proof.
  induction groups as [|[c es] groups IH]; intros G Hwf Hbg; simpl.
  { split; [|done]. by intros _ c es ?%elem_of_nil. }
  destruct (group_step_grows G c es) as (He & Hbg' & _).
  assert (Hstep : forall paths, term_paths G c = Ok paths ->
            (group_step G c es).2 = Ok tt).
  { intros paths Hp. unfold group_step. rewrite Hp.
    apply paths_loop_returns; [done|].
    intros p n Hp' Hn. by apply (term_paths_nodes G c paths p n). }
  assert (Hfail : forall e, term_paths G c = Raise e ->
            (group_step G c es).2 = Raise e).
  { intros e Hp. unfold group_step. by rewrite Hp. }
  destruct (group_step G c es) as [G1 [e|[]]] eqn:Hgs; simpl in *.
  - split; [done|]. intros Hall. destruct (Hall c es) as [paths Hp]; [by left|].
    by pose proof (Hstep paths Hp).
  - rewrite (IH G1 (wf_graph_erase _ _ He Hwf) (Hbg' Hbg)). split.
    + intros Hall c' es' [[= -> ->]|Hin]%elem_of_cons.
      * destruct (term_paths G c) as [e|paths] eqn:Hp; [|by eexists].
        by pose proof (Hfail e eq_refl).
      * rewrite <- (term_paths_erase _ _ c' He). by apply (Hall c' es').
    + intros Hall c' es' Hin. rewrite (term_paths_erase _ _ c' He).
      apply (Hall c' es'). by right.
Qed.

Lemma group_insert_nonempty k e gs :
  Forall (fun g : string * list string => g.2 ≠ []) gs ->
  Forall (fun g : string * list string => g.2 ≠ []) (group_insert k e gs).
Proof.
  induction gs as [|[k' es] gs IH]; intros Hall; simpl.
  { by repeat constructor. }
  apply Forall_cons in Hall as [Hes Hall].
  destruct (String.compare k k').
  - constructor; [|done]. simpl. by destruct es.
  - by repeat constructor.
  - constructor; [done|by apply IH].
Qed.

Lemma groupby_nonempty ccol ecol c es :
  (c, es) ∈ groupby ccol ecol -> exists x, x ∈ es.
Proof.
  assert (Hall : Forall (fun g : string * list string => g.2 ≠ [])
                   (groupby ccol ecol)).
  { unfold groupby.
    generalize (@nil (string * list string))
      (Forall_nil_2 (fun g : string * list string => g.2 ≠ [])).
    induction (zip ccol ecol) as [|kv kvs IH]; intros gs Hgs; simpl; [done|].
    apply IH. by apply group_insert_nonempty. }
  intros Hin. pose proof (proj1 (Forall_forall _ _) Hall _ Hin) as Hne.
  simpl in Hne. destruct es as [|x es]; [done|]. exists x. by left.
Qed.

(** X4.  On a well-formed graph the call returns exactly when both
    columns exist and every category that occurs in a row is a node with a
    namespace whose configured root is a node; otherwise it raises. *)
Theorem set_background_returns_iff G df entry_id category_id :
  wf_graph G ->
  (set_background G df entry_id category_id).2 = Ok tt <->
  exists ecol ccol,
    df !! entry_id = Some ecol /\ df !! category_id = Some ccol /\
    forall c x, (c, x) ∈ rows ccol ecol -> resolvable G c.
Proof.
  intros Hwf. unfold set_background.
  destruct (df !! entry_id) as [ecol|]; [|split; [done|by intros (?&?&?&_)]].
  destruct (df !! category_id) as [ccol|];
    [|split; [done|by intros (?&?&_&?&_)]].
  set (G1 := with_nodes G (reset_background _ <$> node G)).
  assert (He : erase G1 = erase G) by apply erase_reset.
  rewrite (groups_loop_returns _ G1 (wf_graph_erase _ _ He Hwf)
             (has_backgrounds_reset _ G)).
  split.
  - intros Hall. exists ecol, ccol. do 2 (split; [done|]).
    intros c x Hrow. apply groupby_rows in Hrow as (es & Hin & _).
    apply term_paths_resolvable. rewrite <- (term_paths_erase _ _ c He).
    by apply (Hall c es).
  - intros (ecol' & ccol' & [= <-] & [= <-] & Hall) c es Hin.
    destruct (groupby_nonempty _ _ _ _ Hin) as [x Hx].
    rewrite (term_paths_erase _ _ c He). apply term_paths_resolvable.
    apply (Hall c x). apply groupby_rows. by exists es.
Qed.

(** X5.  After a call that returned, an entry is in the background of a
    node exactly when some row of the table pairs it with a category that
    propagates to the node; the result does not depend on the order of the
    rows or of the categories. *)
Theorem set_background_exact G df entry_id category_id G' ecol ccol m nd' b x :
  set_background G df entry_id category_id = (G', Ok tt) ->
  df !! entry_id = Some ecol -> df !! category_id = Some ccol ->
  node G' !! m = Some nd' -> attr_background nd' = Some b ->
  x ∈ b <-> exists c, (c, x) ∈ rows ccol ecol /\ propagates G c m.
Proof.
  intros Hrun He Hc Hm Hb.
  assert (Hbg : bg_of G' m = b) by (unfold bg_of; by rewrite Hm; simpl; rewrite Hb).
  split.
  - intros Hx.
    destruct (set_background_sound G df entry_id category_id ecol ccol m x)
      as (c & es & Hin & Hprop & Hes); [done..|rewrite Hrun; simpl; by rewrite Hbg|].
    exists c. split; [|done]. apply groupby_rows. by exists es.
  - intros (c & Hrow & Hprop).
    apply groupby_rows in Hrow as (es & Hin & Hes). rewrite <- Hbg.
    apply (set_background_complete G df entry_id category_id G' c es);
      [done| |done..].
    intros ecol' ccol' He' Hc'. congruence.
Qed.

Lemma set_background_returns_iff_witness :
  (set_background diamond_graph diamond_table "gene" "go").2 = Ok tt <->
  exists ecol ccol,
    diamond_table !! "gene" = Some ecol /\ diamond_table !! "go" = Some ccol /\
    forall c x, (c, x) ∈ rows ccol ecol -> resolvable diamond_graph c.
Proof.
  apply (set_background_returns_iff diamond_graph diamond_table "gene" "go").
  apply wf_graph_intro; apply (bool_decide_unpack _); by vm_compute.
Defined.

Lemma set_background_exact_witness :
  "g1" ∈ ({["g1"; "g2"]} : gset string) <->
  exists c, (c, "g1") ∈ rows ["leaf"; "a"; "b"] ["g1"; "g2"; "g3"] /\
            propagates diamond_graph c "a".
Proof.
  assert (Hrun : set_background diamond_graph diamond_table "gene" "go"
                 = ((set_background diamond_graph diamond_table "gene" "go").1,
                    Ok tt)) by (vm_compute; reflexivity).
  assert (He : diamond_table !! "gene" = Some ["g1"; "g2"; "g3"])
    by (vm_compute; reflexivity).
  assert (Hc : diamond_table !! "go" = Some ["leaf"; "a"; "b"])
    by (vm_compute; reflexivity).
  assert (Hm : node (set_background diamond_graph diamond_table "gene" "go").1
                 !! "a"
               = Some (mkNode (Some "bp") (Some {["g1"; "g2"]}) (Some 3)
                         None None None None None None None None))
    by (vm_compute; reflexivity).
  exact (set_background_exact diamond_graph diamond_table "gene" "go" _
           _ _ "a" _ {["g1"; "g2"]} "g1" Hrun He Hc Hm eq_refl).
Defined.

(** ** Annotations at a root, and along paths *)

Lemma acyclic_no_cycle G r p : acyclic G -> ~ simple_path G r r p.
Proof.
  intros Hac (Hw & Hh & Hl & Hlen & _).
  pose proof (Hac p Hw) as Hnd.
  apply head_Some in Hh as [rest ->].
  destruct rest as [|v rest]; [simpl in Hlen; lia|].
  rewrite last_cons_cons in Hl. apply NoDup_cons in Hnd as [Hr _].
  apply Hr. by apply last_Some_elem_of.
Qed.

(** X6.  On an acyclic graph the entries annotated at a namespace root
    itself reach no background, not even the root's: an entry whose every
    row names the root is in no background after the call, whatever its
    outcome. *)
Theorem root_annotations_dropped G df entry_id category_id
    r nd ns rs ecol ccol x m nd' b :
  acyclic G ->
  node G !! r = Some nd -> attr_namespace nd = Some ns ->
  roots G = Some rs -> rs !! ns = Some r ->
  df !! entry_id = Some ecol -> df !! category_id = Some ccol ->
  (forall c, (c, x) ∈ rows ccol ecol -> c = r) ->
  node (set_background G df entry_id category_id).1 !! m = Some nd' ->
  attr_background nd' = Some b ->
  x ∉ b.
Proof.
  intros Hac Hr Hns Hrs Hroot He Hc Honly Hm Hb Hx.
  destruct (set_background_sound G df entry_id category_id ecol ccol m x)
    as (c & es & Hin & Hprop & Hes); [done..| |].
  { unfold bg_of. rewrite Hm. simpl. by rewrite Hb. }
  assert (c = r) as ->.
  { apply Honly. apply groupby_rows. by exists es. }
  destruct Hprop as (paths & p & Hpaths & Hp & _).
  rewrite (term_paths_unreachable G r nd ns rs r) in Hpaths;
    [|done..|by eexists|intros q; by apply acyclic_no_cycle].
  injection Hpaths as <-. by apply elem_of_nil in Hp.
Qed.

(** X7.  After a call that returned on a well-formed graph, the entries of
    a category are in the background of every node on every simple path
    from the category's term to the root of its namespace, the term and
    the root included, when the term is not the root itself. *)
Theorem set_background_covers_paths G df entry_id category_id G'
    ecol ccol c x nd ns rs root p m :
  wf_graph G ->
  set_background G df entry_id category_id = (G', Ok tt) ->
  df !! entry_id = Some ecol -> df !! category_id = Some ccol ->
  (c, x) ∈ rows ccol ecol ->
  node G !! c = Some nd -> attr_namespace nd = Some ns ->
  roots G = Some rs -> rs !! ns = Some root -> c ≠ root ->
  simple_path G c root p -> m ∈ p ->
  exists ndm b,
    node G' !! m = Some ndm /\ attr_background ndm = Some b /\ x ∈ b.
Proof.
  intros Hwf Hrun He Hc Hrow Hnd Hns Hrs Hroot Hne
    (Hw & Hh & Hl & Hlen & _ & Hnodup) Hm.
  destruct (all_simple_paths_complete G c root p Hwf Hw (Hnodup Hne) Hh Hl Hlen)
    as (paths & Hpaths & Hp).
  assert (Hprop : propagates G c m).
  { exists paths, p. split; [|done].
    unfold term_paths. by rewrite Hnd, Hns, Hrs, Hroot. }
  destruct (set_background_nodes G df entry_id category_id G' m Hrun)
    as (ndm & Hndm & Hb).
  { by apply (is_walk_elem_of_nodes G p). }
  exists ndm, (bg_of G' m). do 2 (split; [done|]).
  apply groupby_rows in Hrow as (es & Hin & Hes).
  apply (set_background_complete G df entry_id category_id G' c es);
    [done| |done..].
  intros ecol' ccol' He' Hc'. congruence.
Qed.

Lemma root_annotations_dropped_witness :
  "g4" ∉ ({["g1"]} : gset string).
Proof.
  assert (Hac : acyclic diamond_graph).
  { apply (acyclic_intro _ diamond_rank); apply (bool_decide_unpack _);
      by vm_compute. }
  assert (Hr : node diamond_graph !! "root" = Some (bare_node "bp"))
    by (vm_compute; reflexivity).
  assert (Hroot : ({["bp" := "root"]} : gmap string string) !! "bp"
                  = Some "root") by (vm_compute; reflexivity).
  assert (He : root_table !! "gene" = Some ["g1"; "g4"])
    by (vm_compute; reflexivity).
  assert (Hc : root_table !! "go" = Some ["leaf"; "root"])
    by (vm_compute; reflexivity).
  assert (Honly : forall c,
            (c, "g4") ∈ rows ["leaf"; "root"] ["g1"; "g4"] -> c = "root").
  { intros c H. unfold rows in H. simpl in H.
    apply elem_of_cons in H as [H|H]; [by inversion H|].
    apply elem_of_cons in H as [H|H]; [by inversion H|].
    by apply elem_of_nil in H. }
  assert (Hm : node (set_background diamond_graph root_table "gene" "go").1
                 !! "root"
               = Some (mkNode (Some "bp") (Some {["g1"]}) (Some 2)
                         None None None None None None None None))
    by (vm_compute; reflexivity).
  exact (root_annotations_dropped diamond_graph root_table "gene" "go"
           "root" (bare_node "bp") "bp" {["bp" := "root"]}
           ["g1"; "g4"] ["leaf"; "root"] "g4" "root" _ {["g1"]}
           Hac Hr eq_refl eq_refl Hroot He Hc Honly Hm eq_refl).
Defined.

Lemma set_background_covers_paths_witness :
  exists ndm b,
    node (set_background diamond_graph diamond_table "gene" "go").1 !! "root"
      = Some ndm /\
    attr_background ndm = Some b /\ "g1" ∈ b.
Proof.
  assert (Hwf : wf_graph diamond_graph).
  { apply wf_graph_intro; apply (bool_decide_unpack _); by vm_compute. }
  assert (Hrun : set_background diamond_graph diamond_table "gene" "go"
                 = ((set_background diamond_graph diamond_table "gene" "go").1,
                    Ok tt)) by (vm_compute; reflexivity).
  assert (He : diamond_table !! "gene" = Some ["g1"; "g2"; "g3"])
    by (vm_compute; reflexivity).
  assert (Hc : diamond_table !! "go" = Some ["leaf"; "a"; "b"])
    by (vm_compute; reflexivity).
  assert (Hrow : ("leaf", "g1") ∈ rows ["leaf"; "a"; "b"] ["g1"; "g2"; "g3"])
    by (by left).
  assert (Hnd : node diamond_graph !! "leaf" = Some (bare_node "bp"))
    by (vm_compute; reflexivity).
  assert (Hroot : ({["bp" := "root"]} : gmap string string) !! "bp"
                  = Some "root") by (vm_compute; reflexivity).
  assert (Hne : "leaf" ≠ "root") by (intros H; discriminate H).
  assert (Hp : simple_path diamond_graph "leaf" "root" ["leaf"; "a"; "root"]).
  { split.
    { simpl. split; [|split; [|done]]; apply (bool_decide_unpack _);
        by vm_compute. }
    split; [done|]. split; [done|]. split; [simpl; lia|].
    split; [|intros _]; apply (bool_decide_unpack _); by vm_compute. }
  assert (Hm : "root" ∈ ["leaf"; "a"; "root"])
    by (apply (bool_decide_unpack _); by vm_compute).
  exact (set_background_covers_paths diamond_graph diamond_table "gene" "go" _
           ["g1"; "g2"; "g3"] ["leaf"; "a"; "b"] "leaf" "g1"
           (bare_node "bp") "bp" {["bp" := "root"]} "root"
           ["leaf"; "a"; "root"] "root"
           Hwf Hrun He Hc Hrow Hnd eq_refl eq_refl Hroot Hne Hp Hm).
Defined.

(** * Further properties of calculate_pvalues *)

Lemma pvalue_node_keeps query_set N mh minc maxc nd0 :
  reset_query (pvalue_node query_set N mh minc maxc nd0).1 = reset_query nd0.
Proof.
  by destruct (pvalue_node_outcome query_set N mh minc maxc nd0).
Qed.

Lemma pvalues_loop_keeps query_set N mh minc maxc ks : forall G pv m,
  reset_query <$> node (pvalues_loop query_set N mh minc maxc ks G pv).1 !! m
  = reset_query <$> node G !! m.
Proof.
  induction ks as [|i ks IH]; intros G pv m; simpl; [done|].
  destruct (node G !! i) as [nd0|] eqn:Hi; [|done].
  pose proof (pvalue_node_keeps query_set N mh minc maxc nd0) as Hk.
  destruct (pvalue_node query_set N mh minc maxc nd0) as [nd r].
  simpl in Hk.
  assert (Hset : reset_query <$> node (set_node G i nd) !! m
                 = reset_query <$> node G !! m).
  { simpl. destruct (decide (m = i)) as [->|Hne].
    - by rewrite lookup_insert_eq, Hi; simpl; rewrite Hk.
    - by rewrite lookup_insert_ne. }
  destruct r as [e|[p|]]; simpl; [done|by rewrite IH..].
Qed.

(** X8.  Whatever its outcome, [calculate_pvalues] reads the backgrounds
    and writes only query attributes: edges, roots and correction metadata
    are as before, no node is added or removed, and on every node the
    namespace, the background and [M] are as before. *)
Theorem calculate_pvalues_frame G query mh minc maxc :
  let G' := (calculate_pvalues G query mh minc maxc).1 in
  adj G' = adj G /\ roots G' = roots G /\
  mtc_method G' = mtc_method G /\ mtc_alpha G' = mtc_alpha G /\
  forall m,
    match node G !! m, node G' !! m with
    | Some nd, Some nd' =>
        attr_namespace nd' = attr_namespace nd /\
        attr_background nd' = attr_background nd /\
        attr_M nd' = attr_M nd
    | None, None => True
    | _, _ => False
    end.
Proof.
  intros G'. unfold G', calculate_pvalues.
  destruct (pvalues_loop_frame (list_to_set query)
    (Z.of_nat (size (list_to_set query : gset string))) mh minc maxc
    (map_to_list (node G)).*1 G ∅) as (Ha & Hr & Hm & Hal).
  do 4 (split; [done|]). intros m.
  pose proof (pvalues_loop_keeps (list_to_set query)
    (Z.of_nat (size (list_to_set query : gset string))) mh minc maxc
    (map_to_list (node G)).*1 G ∅ m) as Hk.
  destruct (node G !! m) as [nd|],
    (node (pvalues_loop _ _ _ _ _ _ G ∅).1 !! m) as [nd'|];
    simpl in Hk; try done.
  apply (inj Some) in Hk.
  repeat split;
    [exact (f_equal attr_namespace Hk)|exact (f_equal attr_background Hk)
    |exact (f_equal attr_M Hk)].
Qed.

(** X9.  For every term of the returned map the recorded hits are exactly
    the distinct identifiers of the query that are in the term's
    background, [x] is their number, [N] the number of distinct
    identifiers of the query and [n] the size of the background, so that
    [min_hit_size <= x <= min(N, n)]. *)
Theorem retained_hits_bounds G query mh minc maxc G' pv i p nd :
  calculate_pvalues G query mh minc maxc = (G', Ok pv) ->
  pv !! i = Some p -> node G' !! i = Some nd ->
  exists hits x n N,
    attr_hits nd = Some hits /\ attr_x nd = Some x /\
    attr_n nd = Some n /\ attr_N nd = Some N /\
    (forall e, e ∈ hits <->
       e ∈ query /\ e ∈ default ∅ (attr_background nd)) /\
    x = Z.of_nat (size hits) /\
    n = Z.of_nat (size (default ∅ (attr_background nd))) /\
    N = Z.of_nat (size (list_to_set query : gset string)) /\
    mh <= x /\ 0 <= x <= Z.min N n.
Proof.
  intros Hrun Hp Hnd.
  pose proof (calculate_pvalues_ok _ _ _ _ _ _ _ Hrun i) as H.
  destruct (node G !! i) as [nd0|]; [|destruct H; congruence].
  destruct H as (nd1 & r & Hstep & Hnd1 & Hr).
  assert (nd1 = nd) as -> by congruence.
  rewrite Hp in Hr. subst r.
  pose proof (pvalue_node_outcome (list_to_set query)
    (Z.of_nat (size (list_to_set query : gset string))) mh minc maxc nd0) as Hout.
  rewrite Hstep in Hout. inversion Hout as [| |M bg n hits x q Hs Hge HM Heq|];
    subst.
  exists hits, x, n, (Z.of_nat (size (list_to_set query : gset string))).
  simpl. do 4 (split; [done|]). split.
  { intros e. unfold hits. rewrite elem_of_intersection, elem_of_list_to_set.
    done. }
  do 3 (split; [done|]). split; [done|].
  assert (Hx1 : (size hits <= size (list_to_set query : gset string))%nat).
  { apply subseteq_size. unfold hits. apply intersection_subseteq_l. }
  assert (Hx2 : (size hits <= size bg)%nat).
  { apply subseteq_size. unfold hits. apply intersection_subseteq_r. }
  unfold x, n. lia.
Qed.

Lemma retained_hits_bounds_witness :
  exists hits x n N,
    Some ({["a"; "b"; "c"]} : gset string) = Some hits /\ Some 3 = Some x /\
    Some 3 = Some n /\ Some 3 = Some N /\
    (forall e, e ∈ hits <->
       e ∈ ["a"; "b"; "c"; "a"] /\ e ∈ ({["a"; "b"; "c"]} : gset string)) /\
    x = Z.of_nat (size hits) /\
    n = Z.of_nat (size ({["a"; "b"; "c"]} : gset string)) /\
    N = Z.of_nat (size (list_to_set ["a"; "b"; "c"; "a"] : gset string)) /\
    2 <= x /\ 0 <= x <= Z.min N n.
Proof.
  pose (G := one_term_graph (term_node "bp" ["a"; "b"; "c"] 4)).
  assert (Hrun : calculate_pvalues G ["a"; "b"; "c"; "a"] 2 3 500
                 = ((calculate_pvalues G ["a"; "b"; "c"; "a"] 2 3 500).1,
                    Ok {["t" := Fin 0]})) by (vm_compute; reflexivity).
  assert (Hp : ({["t" := Fin 0]} : gmap string float) !! "t" = Some (Fin 0))
    by (vm_compute; reflexivity).
  assert (Hnd : node (calculate_pvalues G ["a"; "b"; "c"; "a"] 2 3 500).1 !! "t"
                = Some (mkNode (Some "bp") (Some {["a"; "b"; "c"]}) (Some 4)
                          (Some {["a"; "b"; "c"]}) (Some 3) (Some 3)
                          (Some {["a"; "b"; "c"]}) (Some 3) (Some (Fin 0))
                          None None)) by (vm_compute; reflexivity).
  exact (retained_hits_bounds G ["a"; "b"; "c"; "a"] 2 3 500 _ _ "t" _ _
           Hrun Hp Hnd).
Defined.

(** ** Queries do not depend on earlier results *)

Lemma pvalue_node_reset query_set N mh minc maxc nd0 :
  pvalue_node query_set N mh minc maxc (reset_query nd0)
  = pvalue_node query_set N mh minc maxc nd0.
Proof. reflexivity. Qed.

(** The loop returns as soon as the step of every listed node returns. *)
Lemma pvalues_loop_returns query_set N mh minc maxc ks : forall G pv,
  NoDup ks ->
  (forall i, i ∈ ks -> exists nd0 nd r,
      node G !! i = Some nd0 /\
      pvalue_node query_set N mh minc maxc nd0 = (nd, Ok r)) ->
  exists G' pv', pvalues_loop query_set N mh minc maxc ks G pv = (G', Ok pv').
Proof.
  induction ks as [|k ks IH]; intros G pv Hnd Hall; simpl; [eauto|].
  apply NoDup_cons in Hnd as [Hk Hnd].
  destruct (Hall k) as (nd0 & nd & r & -> & ->); [by left|].
  assert (Hrest : forall pv1, exists G' pv',
    pvalues_loop query_set N mh minc maxc ks (set_node G k nd) pv1
    = (G', Ok pv')).
  { intros pv1. apply IH; [done|]. intros i Hi.
    destruct (Hall i) as (ndi & ndi' & ri & Hlook & Hstep); [by right|].
    exists ndi, ndi', ri. split; [|done]. simpl.
    rewrite lookup_insert_ne; [done|]. by intros ->. }
  destruct r; apply Hrest.
Qed.

Lemma graph_eq G G' :
  node G = node G' -> adj G = adj G' -> roots G = roots G' ->
  mtc_method G = mtc_method G' -> mtc_alpha G = mtc_alpha G' -> G = G'.
Proof. destruct G, G'. simpl. by intros -> -> -> -> ->. Qed.

(** Two graphs that differ only in query attributes give the same map and
    the same nodes, when the call returns on one of them. *)
Lemma calculate_pvalues_congruent G1 G2 query mh minc maxc G1' pv :
  (forall m, reset_query <$> node G2 !! m = reset_query <$> node G1 !! m) ->
  calculate_pvalues G1 query mh minc maxc = (G1', Ok pv) ->
  exists G2',
    calculate_pvalues G2 query mh minc maxc = (G2', Ok pv) /\
    node G2' = node G1'.
Proof.
  intros Hsame Hrun1.
  set (Q := list_to_set query : gset string) in *.
  set (N := Z.of_nat (size Q)) in *.
  assert (Hstep : forall i nd2, node G2 !! i = Some nd2 ->
    exists nd1, node G1 !! i = Some nd1 /\
      pvalue_node Q N mh minc maxc nd2 = pvalue_node Q N mh minc maxc nd1).
  { intros i nd2 Hi. pose proof (Hsame i) as Hs. rewrite Hi in Hs.
    destruct (node G1 !! i) as [nd1|]; [|done]. exists nd1. split; [done|].
    simpl in Hs. apply (inj Some) in Hs.
    by rewrite <- (pvalue_node_reset _ _ _ _ _ nd2), Hs, pvalue_node_reset. }
  destruct (pvalues_loop_returns Q N mh minc maxc
              (map_to_list (node G2)).*1 G2 ∅) as (G2' & pv2 & Hrun2).
  { apply NoDup_fst_map_to_list. }
  { intros i [nd2 Hi]%elem_of_node_keys.
    destruct (Hstep i nd2 Hi) as (nd1 & Hi1 & Heq).
    pose proof (calculate_pvalues_ok _ _ _ _ _ _ _ Hrun1 i) as H.
    rewrite Hi1 in H. destruct H as (nd & r & Hs & _).
    fold Q N in Hs. exists nd2, nd, r. split; [done|]. by rewrite Heq. }
  assert (Hrun2' : calculate_pvalues G2 query mh minc maxc = (G2', Ok pv2))
    by done.
  assert (Hpoint : forall i, node G2' !! i = node G1' !! i /\ pv2 !! i = pv !! i).
  { intros i.
    pose proof (calculate_pvalues_ok _ _ _ _ _ _ _ Hrun1 i) as H1.
    pose proof (calculate_pvalues_ok _ _ _ _ _ _ _ Hrun2' i) as H2.
    fold Q N in H1, H2. pose proof (Hsame i) as Hs.
    destruct (node G2 !! i) as [nd2|] eqn:Hi2.
    - destruct (Hstep i nd2 Hi2) as (nd1 & Hi1 & Heq). rewrite Hi1 in H1.
      destruct H1 as (n1 & r1 & Hs1 & -> & ->).
      destruct H2 as (n2 & r2 & Hs2 & -> & ->).
      rewrite Heq, Hs1 in Hs2. by injection Hs2 as -> ->.
    - destruct (node G1 !! i); [done|].
      destruct H1 as [-> ->], H2 as [-> ->]. done. }
  exists G2'. assert (pv2 = pv) as ->.
  { apply map_eq. intros i. apply Hpoint. }
  split; [done|]. apply map_eq. intros i. apply Hpoint.
Qed.

(** X10.  A query is reproducible: on the graph that a returned call has
    left, the same call returns the same map and leaves the graph as it
    is. *)
Theorem calculate_pvalues_idempotent G query mh minc maxc G' pv :
  calculate_pvalues G query mh minc maxc = (G', Ok pv) ->
  calculate_pvalues G' query mh minc maxc = (G', Ok pv).
Proof.
  intros Hrun.
  destruct (calculate_pvalues_congruent G G' query mh minc maxc G' pv)
    as (G2 & Hrun2 & Hnodes); [|done|].
  { intros m. unfold calculate_pvalues in Hrun.
    pose proof (pvalues_loop_keeps (list_to_set query)
      (Z.of_nat (size (list_to_set query : gset string))) mh minc maxc
      (map_to_list (node G)).*1 G ∅ m) as Hk.
    by rewrite Hrun in Hk. }
  rewrite Hrun2. f_equal.
  destruct (pvalues_loop_frame (list_to_set query)
    (Z.of_nat (size (list_to_set query : gset string))) mh minc maxc
    (map_to_list (node G')).*1 G' ∅) as (Ha & Hr & Hm & Hal).
  unfold calculate_pvalues in Hrun2. rewrite Hrun2 in Ha, Hr, Hm, Hal.
  by apply graph_eq.
Qed.

Lemma calculate_pvalues_idempotent_witness :
  let G := one_term_graph (stale_node "bp" ["a"; "b"; "c"] 4) in
  calculate_pvalues (calculate_pvalues G ["a"; "b"] 2 3 500).1
    ["a"; "b"] 2 3 500
  = ((calculate_pvalues G ["a"; "b"] 2 3 500).1,
     Ok {["t" := Fin (0 # 1)]}).
Proof.
  intros G.
  apply (calculate_pvalues_idempotent G ["a"; "b"] 2 3 500).
  vm_compute. reflexivity.
Defined.

(** X11.  The earlier state of the query attributes does not matter: on a
    graph with the same nodes, backgrounds, [M] and namespaces, whatever
    results of earlier queries or corrections its nodes carry, the call
    returns the same map and leaves the same nodes. *)
Theorem calculate_pvalues_ignores_stale G1 G2 query mh minc maxc G1' pv :
  (forall m,
     match node G1 !! m, node G2 !! m with
     | Some nd1, Some nd2 =>
         attr_namespace nd2 = attr_namespace nd1 /\
         attr_background nd2 = attr_background nd1 /\
         attr_M nd2 = attr_M nd1
     | None, None => True
     | _, _ => False
     end) ->
  calculate_pvalues G1 query mh minc maxc = (G1', Ok pv) ->
  exists G2',
    calculate_pvalues G2 query mh minc maxc = (G2', Ok pv) /\
    node G2' = node G1'.
Proof.
  intros Hsame. apply calculate_pvalues_congruent. intros m.
  specialize (Hsame m).
  destruct (node G1 !! m) as [nd1|], (node G2 !! m) as [nd2|]; try done.
  destruct Hsame as (Hns & Hbg & HM). simpl. f_equal.
  unfold reset_query. by rewrite Hns, Hbg, HM.
Qed.

Lemma calculate_pvalues_ignores_stale_witness :
  exists G2',
    calculate_pvalues (one_term_graph (stale_node "bp" ["a"; "b"; "c"] 4))
      ["a"; "b"] 2 3 500 = (G2', Ok {["t" := Fin (0 # 1)]}) /\
    node G2'
    = node (calculate_pvalues (one_term_graph (term_node "bp" ["a"; "b"; "c"] 4))
              ["a"; "b"] 2 3 500).1.
Proof.
  apply (calculate_pvalues_ignores_stale
           (one_term_graph (term_node "bp" ["a"; "b"; "c"] 4))
           (one_term_graph (stale_node "bp" ["a"; "b"; "c"] 4))).
  - intros m. unfold one_term_graph. simpl.
    destruct (decide (m = "t")) as [->|Hne].
    + by rewrite !lookup_singleton_eq.
    + by rewrite !lookup_singleton_ne.
  - vm_compute. reflexivity.
Defined.

(** ** When calculate_pvalues returns *)

Lemma pvalue_node_result query_set N mh minc maxc nd0 :
  let n := Z.of_nat (size (default ∅ (attr_background nd0))) in
  let x := Z.of_nat (size (query_set ∩ default ∅ (attr_background nd0))) in
  ((exists nd r, pvalue_node query_set N mh minc maxc nd0 = (nd, Ok r)) <->
   (attr_M nd0 = None -> size_skip n minc maxc = true \/ x < mh)) /\
  ((exists r, (pvalue_node query_set N mh minc maxc nd0).2 = Ok r) \/
   (pvalue_node query_set N mh minc maxc nd0).2 = Raise (KeyError "M")).
Proof.
  intros n x.
  destruct (pvalue_node_outcome query_set N mh minc maxc nd0)
    as [Hs|n' x' Hs Hlt|M bg n' hits x' p Hs Hge HM|bg n' hits x' Hs Hge HM].
  - split; [|left; by eexists]. split; [by left|by eexists _, _].
  - split; [|left; by eexists]. split; [by right|by eexists _, _].
  - split; [|left; by eexists]. split; [congruence|by eexists _, _].
  - split; [|by right]. split; [by intros (? & ? & [=])|].
    intros H. destruct (H HM) as [H'|H'].
    + subst n n' bg. congruence.
    + subst x x' hits bg. lia.
Qed.

Lemma pvalues_loop_outcome query_set N mh minc maxc ks : forall G pv,
  (forall i, i ∈ ks -> is_Some (node G !! i)) ->
  (exists pv',
     (pvalues_loop query_set N mh minc maxc ks G pv).2 = Ok pv') \/
  (pvalues_loop query_set N mh minc maxc ks G pv).2 = Raise (KeyError "M").
Proof.
  induction ks as [|k ks IH]; intros G pv Hin; simpl; [left; by eexists|].
  destruct (Hin k) as [nd0 ->]; [by left|].
  destruct (proj2 (pvalue_node_result query_set N mh minc maxc nd0))
    as [[r Hr]|Hr];
    destruct (pvalue_node query_set N mh minc maxc nd0) as [nd r'];
    simpl in Hr; subst r'; [|by right].
  assert (Hin' : forall i, i ∈ ks -> is_Some (node (set_node G k nd) !! i)).
  { intros i Hi. simpl. destruct (decide (i = k)) as [->|Hne].
    - rewrite lookup_insert_eq. by eexists.
    - rewrite lookup_insert_ne by done. apply Hin. by right. }
  destruct r; by apply IH.
Qed.

(** X12.  The call returns exactly when every node without [M] is passed
    over by one of the two filters; otherwise it raises [KeyError('M')],
    and it raises nothing else. *)
Theorem calculate_pvalues_returns_iff G query mh minc maxc :
  ((exists G' pv, calculate_pvalues G query mh minc maxc = (G', Ok pv)) <->
   (forall i nd, node G !! i = Some nd -> attr_M nd = None ->
      let background := default ∅ (attr_background nd) in
      size_skip (Z.of_nat (size background)) minc maxc = true \/
      Z.of_nat (size ((list_to_set query : gset string) ∩ background)) < mh))
  /\
  ((exists pv, (calculate_pvalues G query mh minc maxc).2 = Ok pv) \/
   (calculate_pvalues G query mh minc maxc).2 = Raise (KeyError "M")).
Proof.
  split; [split|].
  - intros (G' & pv & Hrun) i nd Hi HM.
    pose proof (calculate_pvalues_ok _ _ _ _ _ _ _ Hrun i) as H.
    rewrite Hi in H. destruct H as (nd' & r & Hstep & _).
    apply (proj1 (proj1 (pvalue_node_result (list_to_set query)
      (Z.of_nat (size (list_to_set query : gset string))) mh minc maxc nd)));
      [by eexists _, _|done].
  - intros Hall. apply pvalues_loop_returns; [apply NoDup_fst_map_to_list|].
    intros i [nd0 Hi]%elem_of_node_keys.
    destruct (proj2 (proj1 (pvalue_node_result (list_to_set query)
      (Z.of_nat (size (list_to_set query : gset string))) mh minc maxc nd0)))
      as (nd & r & Hstep); [by apply (Hall i)|].
    by exists nd0, nd, r.
  - apply pvalues_loop_outcome. by intros i ?%elem_of_node_keys.
Qed.

(** X13.  A query after [set_background] never raises: on the graph the
    call has left, whatever its outcome once the entry column was found,
    [calculate_pvalues] returns for every query and all thresholds. *)
Theorem query_after_set_background G df entry_id category_id ecol
    query mh minc maxc :
  df !! entry_id = Some ecol ->
  exists G' pv,
    calculate_pvalues (set_background G df entry_id category_id).1
      query mh minc maxc = (G', Ok pv).
Proof.
  intros He. apply calculate_pvalues_total. intros i nd Hi.
  destruct (reset_then_writes _ G _ i nd
              (set_background_writes G df entry_id category_id ecol He) Hi)
    as [-> _].
  by eexists.
Qed.

Lemma query_after_set_background_witness :
  exists G' pv,
    calculate_pvalues (set_background diamond_graph diamond_table "gene" "go").1
      ["g1"; "g2"] 2 3 500 = (G', Ok pv).
Proof.
  apply (query_after_set_background diamond_graph diamond_table "gene" "go"
           ["g1"; "g2"; "g3"]).
  vm_compute. reflexivity.
Defined.

Lemma pvalue_node_few_hits query_set N mh minc maxc nd0 :
  Z.of_nat (size (query_set ∩ default ∅ (attr_background nd0))) < mh ->
  exists nd, pvalue_node query_set N mh minc maxc nd0 = (nd, Ok None).
Proof.
  intros Hlt.
  destruct (pvalue_node_outcome query_set N mh minc maxc nd0)
    as [Hs|n x Hs Hlt'|M bg n hits x p Hs Hge HM|bg n hits x Hs Hge HM];
    [by eexists..| |]; subst x hits bg; lia.
Qed.

Lemma pvalues_no_candidates G query mh minc maxc :
  (forall i nd, node G !! i = Some nd ->
     Z.of_nat (size ((list_to_set query : gset string)
                       ∩ default ∅ (attr_background nd))) < mh) ->
  exists G', calculate_pvalues G query mh minc maxc = (G', Ok ∅).
Proof.
  intros Hall. apply pvalues_loop_all_skipped; [apply NoDup_fst_map_to_list|].
  intros i [nd0 Hi]%elem_of_node_keys.
  destruct (pvalue_node_few_hits (list_to_set query)
    (Z.of_nat (size (list_to_set query : gset string))) mh minc maxc nd0)
    as [nd Hstep]; [by apply (Hall i)|].
  by exists nd0, nd.
Qed.

(** X14.  When no term has [min_hit_size] hits the call returns the empty
    map, whatever the graph: it needs no [M] and no background.  An empty
    query with [min_hit_size >= 1] is the plain case. *)
Theorem calculate_pvalues_no_candidates G query mh minc maxc :
  (query = [] /\ 1 <= mh \/
   forall i nd, node G !! i = Some nd ->
     Z.of_nat (size ((list_to_set query : gset string)
                       ∩ default ∅ (attr_background nd))) < mh) ->
  exists G', calculate_pvalues G query mh minc maxc = (G', Ok ∅).
Proof.
  intros [[-> Hmh]|Hall]; apply pvalues_no_candidates; [|done].
  intros i nd _. simpl. rewrite intersection_empty_l_L, size_empty. lia.
Qed.

Lemma calculate_pvalues_no_candidates_witness :
  exists G',
    calculate_pvalues (one_term_graph (bare_node "bp")) [] 2 3 500
    = (G', Ok ∅).
Proof.
  apply (calculate_pvalues_no_candidates (one_term_graph (bare_node "bp"))
           [] 2 3 500).
  left. split; [reflexivity|lia].
Defined.

(** * Further properties of multiple_testing_correction *)

Lemma set_q_keeps G term nd q s m :
  node G !! term = Some nd ->
  erase_q <$> node (set_node G term (set_q nd q s)) !! m
  = erase_q <$> node G !! m.
Proof.
  intros Ht. simpl. destruct (decide (m = term)) as [->|Hne].
  - by rewrite lookup_insert_eq, Ht.
  - by rewrite lookup_insert_ne.
Qed.

Lemma bonferroni_loop_keeps n items : forall G,
  let G' := (bonferroni_loop n items G).1 in
  adj G' = adj G /\ roots G' = roots G /\
  mtc_method G' = mtc_method G /\ mtc_alpha G' = mtc_alpha G /\
  forall m, erase_q <$> node G' !! m = erase_q <$> node G !! m.
Proof.
  induction items as [|[term p] items IH]; intros G; simpl; [done|].
  destruct (node G !! term) as [nd|] eqn:Ht; [|done].
  destruct (IH (set_node G term
                  (set_q nd (fmul_int p n) (flt (fmul_int p n) literal_0_05))))
    as (-> & -> & -> & -> & IH').
  do 4 (split; [done|]). intros m. by rewrite IH', set_q_keeps.
Qed.

Lemma fdr_loop_keeps items : forall G,
  let G' := (fdr_loop items G).1 in
  adj G' = adj G /\ roots G' = roots G /\
  mtc_method G' = mtc_method G /\ mtc_alpha G' = mtc_alpha G /\
  forall m, erase_q <$> node G' !! m = erase_q <$> node G !! m.
Proof.
  induction items as [|[term [q rej]] items IH]; intros G; simpl; [done|].
  destruct (node G !! term) as [nd|] eqn:Ht; [|done].
  destruct (IH (set_node G term (set_q nd q rej)))
    as (-> & -> & -> & -> & IH').
  do 4 (split; [done|]). intros m. by rewrite IH', set_q_keeps.
Qed.

(** The Bonferroni loop returns exactly when every listed term is a node;
    when it raises, it raises [KeyError] for a listed term that is not. *)
Lemma bonferroni_loop_result n items : forall G,
  ((bonferroni_loop n items G).2 = Ok tt <->
   forall term, term ∈ items.*1 -> is_Some (node G !! term)) /\
  (forall e, (bonferroni_loop n items G).2 = Raise e ->
     exists term, e = KeyError term /\ term ∈ items.*1 /\
                  node G !! term = None).
Proof.
  induction items as [|[t p] items IH]; intros G; simpl.
  { split; [|done]. split; [|done]. by intros _ term ?%elem_of_nil. }
  destruct (node G !! t) as [nd|] eqn:Ht.
  - set (G1 := set_node G t _).
    assert (Hsame : forall k, is_Some (node G1 !! k) <-> is_Some (node G !! k)).
    { intros k. unfold G1. simpl. destruct (decide (k = t)) as [->|Hne].
      - rewrite lookup_insert_eq, Ht. split; by eexists.
      - by rewrite lookup_insert_ne. }
    destruct (IH G1) as [Hok Herr]. split.
    + rewrite Hok. split.
      * intros Hall term [->|Hin]%elem_of_cons; [by eexists|].
        apply Hsame. by apply Hall.
      * intros Hall term Hin. apply Hsame. apply Hall. by right.
    + intros e He. destruct (Herr e He) as (term & -> & Hin & Hnone).
      exists term. split; [done|]. split; [by right|].
      destruct (node G !! term) eqn:Hk; [|done].
      assert (Hs : is_Some (node G1 !! term)) by (apply Hsame; by eexists).
      rewrite Hnone in Hs. by destruct Hs.
  - split.
    + split; [done|]. intros Hall. destruct (Hall t) as [? Hs]; [by left|].
      congruence.
    + intros e [= <-]. exists t. split; [done|]. split; [by left|done].
Qed.

Lemma zip_fst_elem_of {A B} (l : list A) (k : list B) x :
  x ∈ (zip l k).*1 -> x ∈ l.
Proof.
  revert k. induction l as [|a l IH]; intros [|b k] Hx; simpl in *;
    try by apply elem_of_nil in Hx.
  apply elem_of_cons in Hx as [->|Hx]; [by left|right; by eapply IH].
Qed.

Lemma zip_fst_NoDup {A B} (l : list A) (k : list B) :
  NoDup l -> NoDup (zip l k).*1.
Proof.
  revert k. induction l as [|a l IH]; intros [|b k] Hnd; simpl;
    try constructor.
  - apply NoDup_cons in Hnd as [Ha Hnd]. intros Hin. apply Ha.
    by eapply zip_fst_elem_of.
  - apply NoDup_cons in Hnd as [_ Hnd]. by apply IH.
Qed.

Lemma zip_elem_of_full {A B} (l : list A) (k : list B) x :
  length k = length l -> x ∈ l -> exists y, (x, y) ∈ zip l k.
Proof.
  revert k. induction l as [|a l IH]; intros [|b k] Hlen Hx; simpl in *;
    try done; [by apply elem_of_nil in Hx|].
  apply elem_of_cons in Hx as [->|Hx].
  - exists b. by left.
  - destruct (IH k) as [y Hy]; [lia|done|]. exists y. by right.
Qed.

(** The loop of lines 122-125 over distinct terms, when it returns: every
    listed term has received the [q] and the flag listed with it; every
    other node is as before. *)
Lemma fdr_loop_ok items : forall G G',
  NoDup items.*1 ->
  fdr_loop items G = (G', Ok tt) ->
  forall term,
    (term ∉ items.*1 -> node G' !! term = node G !! term) /\
    (forall q rej, (term, (q, rej)) ∈ items -> exists nd,
        node G !! term = Some nd /\
        node G' !! term = Some (set_q nd q rej)).
Proof.
  induction items as [|[k [qk rk]] items IH]; intros G G' Hnd Hrun term;
    simpl in Hrun.
  { inversion Hrun; subst. split; [done|]. by intros q rej ?%elem_of_nil. }
  simpl in Hnd. apply NoDup_cons in Hnd as [Hk Hnd].
  destruct (node G !! k) as [ndk|] eqn:Hlook; [|done].
  destruct (IH _ _ Hnd Hrun term) as [Hout Hin]. split.
  - simpl. intros [Hne Hni]%not_elem_of_cons.
    rewrite (Hout Hni). simpl. by rewrite lookup_insert_ne.
  - intros q rej [Heq|Hp]%elem_of_cons.
    + inversion Heq; subst. rewrite (proj1 (IH _ _ Hnd Hrun k) Hk). simpl.
      rewrite lookup_insert_eq. eauto.
    + assert (term ≠ k).
      { intros ->. apply Hk. apply list_elem_of_fmap. by exists (k, (q, rej)). }
      destruct (Hin q rej Hp) as (nd & H1 & H2). simpl in H1.
      rewrite lookup_insert_ne in H1 by done. eauto.
Qed.

Section FurtherCorrection.

Variable fdrcorrection : list float -> float -> list bool * list float.

Lemma correction_keeps G pvalues alpha method :
  let G' := (multiple_testing_correction fdrcorrection G pvalues alpha
               method).1 in
  adj G' = adj G /\ roots G' = roots G /\
  mtc_method G' = Some method /\ mtc_alpha G' = Some alpha /\
  forall m, erase_q <$> node G' !! m = erase_q <$> node G !! m.
Proof.
  unfold multiple_testing_correction.
  case_decide; [apply (bonferroni_loop_keeps _ _ (graph_update G method alpha))|].
  case_decide; [|done].
  destruct (map_to_list pvalues) as [|item items]; [done|].
  destruct (fdrcorrection _ alpha) as [rejs qs].
  apply (fdr_loop_keeps _ (graph_update G method alpha)).
Qed.

(** X15.  Whatever its outcome, also when it raises,
    [multiple_testing_correction] has recorded the method and alpha in the
    graph-level metadata; it writes nothing else but [q] and
    [significant]: edges and roots are as before, no node is added or
    removed, and every other attribute of every node is as before. *)
Theorem correction_frame G pvalues alpha method :
  let G' := (multiple_testing_correction fdrcorrection G pvalues alpha
               method).1 in
  mtc_method G' = Some method /\ mtc_alpha G' = Some alpha /\
  adj G' = adj G /\ roots G' = roots G /\
  forall m,
    match node G !! m, node G' !! m with
    | Some nd, Some nd' =>
        attr_namespace nd' = attr_namespace nd /\
        attr_background nd' = attr_background nd /\
        attr_M nd' = attr_M nd /\ attr_query nd' = attr_query nd /\
        attr_n nd' = attr_n nd /\ attr_N nd' = attr_N nd /\
        attr_hits nd' = attr_hits nd /\ attr_x nd' = attr_x nd /\
        attr_p nd' = attr_p nd
    | None, None => True
    | _, _ => False
    end.
Proof.
  intros G'.
  destruct (correction_keeps G pvalues alpha method)
    as (Ha & Hr & Hm & Hal & Hk).
  fold G' in Ha, Hr, Hm, Hal, Hk. do 4 (split; [done|]).
  intros m. specialize (Hk m).
  destruct (node G !! m) as [nd|], (node G' !! m) as [nd'|]; simpl in Hk;
    try done.
  apply (inj Some) in Hk.
  repeat split;
    [exact (f_equal attr_namespace Hk)|exact (f_equal attr_background Hk)
    |exact (f_equal attr_M Hk)|exact (f_equal attr_query Hk)
    |exact (f_equal attr_n Hk)|exact (f_equal attr_N Hk)
    |exact (f_equal attr_hits Hk)|exact (f_equal attr_x Hk)
    |exact (f_equal attr_p Hk)].
Qed.

(** X16.  Under 'bonferroni' the call returns exactly when every term of
    the p-value map is a node of the graph; otherwise it raises [KeyError]
    for a term of the map that is not, and it raises nothing else. *)
Theorem bonferroni_returns_iff G pvalues alpha :
  let r := (multiple_testing_correction fdrcorrection G pvalues alpha
              "bonferroni").2 in
  (r = Ok tt <->
   forall term, is_Some (pvalues !! term) -> is_Some (node G !! term)) /\
  (forall e, r = Raise e ->
     exists term, e = KeyError term /\ is_Some (pvalues !! term) /\
                  node G !! term = None).
Proof.
  unfold multiple_testing_correction. rewrite decide_True by done.
  destruct (bonferroni_loop_result (Z.of_nat (size pvalues))
              (map_to_list pvalues) (graph_update G "bonferroni" alpha))
    as [Hok Herr].
  assert (Hkeys : forall term,
    term ∈ (map_to_list pvalues).*1 <-> is_Some (pvalues !! term)).
  { intros term. rewrite list_elem_of_fmap. split.
    - intros [[k p] [-> Hin%elem_of_map_to_list]]. by eexists.
    - intros [p Hp]. exists (term, p). by rewrite elem_of_map_to_list. }
  split.
  - rewrite Hok. split; intros Hall term Hin; apply Hall; by apply Hkeys.
  - intros e He. destruct (Herr e He) as (term & -> & Hin & Hnone).
    exists term. split; [done|]. split; [by apply Hkeys|done].
Qed.

(** X17.  Under 'bonferroni', after a call that returned, every term of
    the p-value map carries [q = p * k], with [k] the number of terms of
    the map, and [significant = (q < 0.05)]; every other node is exactly as
    before and receives no [q]. *)
Theorem bonferroni_values G pvalues alpha G' :
  multiple_testing_correction fdrcorrection G pvalues alpha "bonferroni"
  = (G', Ok tt) ->
  forall term,
    match pvalues !! term with
    | Some p => exists nd,
        let q := fmul_int p (Z.of_nat (size pvalues)) in
        node G !! term = Some nd /\
        node G' !! term = Some (set_q nd q (flt q literal_0_05))
    | None => node G' !! term = node G !! term
    end.
Proof.
  intros Hrun. by destruct (bonferroni_ok fdrcorrection G pvalues alpha G' Hrun)
    as (_ & _ & H).
Qed.

(** X18.  Under 'benjamini-hochberg', when [fdrcorrection] returns one
    flag and one adjusted value per p-value, after a call that returned
    every term of the p-value map carries the adjusted value and the flag
    returned at its position; every other node is exactly as before and
    receives no [q]. *)
Theorem benjamini_hochberg_values G pvalues alpha G' rejs qs :
  fdrcorrection (map_to_list pvalues).*2 alpha = (rejs, qs) ->
  length qs = size pvalues -> length rejs = size pvalues ->
  multiple_testing_correction fdrcorrection G pvalues alpha
    "benjamini-hochberg" = (G', Ok tt) ->
  forall term,
    match pvalues !! term with
    | Some p => exists nd q rej,
        (term, (q, rej)) ∈ zip (map_to_list pvalues).*1 (zip qs rejs) /\
        node G !! term = Some nd /\
        node G' !! term = Some (set_q nd q rej)
    | None => node G' !! term = node G !! term
    end.
Proof.
  intros Hfdr Hqs Hrejs. unfold multiple_testing_correction.
  rewrite decide_False by done. rewrite decide_True by done.
  assert (Hlen : length (map_to_list pvalues) = size pvalues)
    by apply length_map_to_list.
  destruct (map_to_list pvalues) as [|item items] eqn:Hitems; [done|].
  rewrite Hfdr. intros Hrun term.
  set (terms := (item :: items).*1) in *.
  assert (Hnd : NoDup terms).
  { unfold terms. rewrite <- Hitems. apply NoDup_fst_map_to_list. }
  destruct (fdr_loop_ok _ _ _ (zip_fst_NoDup terms (zip qs rejs) Hnd)
              Hrun term) as [Hout Hin].
  assert (Hkeys : term ∈ terms <-> is_Some (pvalues !! term)).
  { unfold terms. rewrite <- Hitems, list_elem_of_fmap. split.
    - intros [[k p] [-> Hin'%elem_of_map_to_list]]. by eexists.
    - intros [p Hp]. exists (term, p). by rewrite elem_of_map_to_list. }
  destruct (pvalues !! term) as [p|] eqn:Hp.
  - destruct (zip_elem_of_full terms (zip qs rejs) term) as [[q rej] Hz].
    { rewrite length_zip. unfold terms. rewrite length_fmap. lia. }
    { apply Hkeys. by eexists. }
    destruct (Hin q rej Hz) as (nd & H1 & H2). by exists nd, q, rej.
  - apply Hout. intros Hin'%zip_fst_elem_of. apply Hkeys in Hin'.
    by destruct Hin'.
Qed.

End FurtherCorrection.

Lemma bonferroni_values_witness :
  let G := one_term_graph (term_node "bp" ["a"; "b"; "c"] 4) in
  let pvalues : gmap string float := {["t" := Fin (3 # 100)]} in
  let G' := (multiple_testing_correction no_fdrcorrection G pvalues
               (Fin (1 # 100)) "bonferroni").1 in
  match pvalues !! "t" with
  | Some p => exists nd,
      let q := fmul_int p (Z.of_nat (size pvalues)) in
      node G !! "t" = Some nd /\
      node G' !! "t" = Some (set_q nd q (flt q literal_0_05))
  | None => node G' !! "t" = node G !! "t"
  end.
Proof.
  intros G pvalues G'.
  assert (Hrun : multiple_testing_correction no_fdrcorrection G pvalues
                   (Fin (1 # 100)) "bonferroni" = (G', Ok tt))
    by (vm_compute; reflexivity).
  exact (bonferroni_values no_fdrcorrection G pvalues (Fin (1 # 100)) G'
           Hrun "t").
Defined.

(** The product is the rounded one: three times the double nearest 1/60
    is the double [0.05] itself, which is not below the literal. *)
Lemma bonferroni_product_rounds :
  let p := Fin (4803839602528529 # 288230376151711744) in
  round64 (1 # 60) = p /\
  fmul_int p 3 = literal_0_05 /\
  flt (fmul_int p 3) literal_0_05 = false.
Proof. by vm_compute. Qed.

Lemma benjamini_hochberg_values_witness :
  let G := one_term_graph (term_node "bp" ["a"; "b"; "c"] 4) in
  let pvalues : gmap string float := {["t" := Fin (3 # 100)]} in
  let G' := (multiple_testing_correction no_fdrcorrection G pvalues
               default_alpha "benjamini-hochberg").1 in
  match pvalues !! "t" with
  | Some p => exists nd q rej,
      ("t", (q, rej))
        ∈ zip (map_to_list pvalues).*1 (zip [Fin (3 # 100)] [false]) /\
      node G !! "t" = Some nd /\
      node G' !! "t" = Some (set_q nd q rej)
  | None => node G' !! "t" = node G !! "t"
  end.
Proof.
  intros G pvalues G'.
  assert (Hfdr : no_fdrcorrection (map_to_list pvalues).*2 default_alpha
                 = ([false], [Fin (3 # 100)])) by (vm_compute; reflexivity).
  assert (Hqs : length [Fin (3 # 100)] = size pvalues)
    by (vm_compute; reflexivity).
  assert (Hrejs : length [false] = size pvalues) by (vm_compute; reflexivity).
  assert (Hrun : multiple_testing_correction no_fdrcorrection G pvalues
                   default_alpha "benjamini-hochberg" = (G', Ok tt))
    by (vm_compute; reflexivity).
  exact (benjamini_hochberg_values no_fdrcorrection G pvalues default_alpha G'
           [false] [Fin (3 # 100)] Hfdr Hqs Hrejs Hrun "t").
Defined.

(** ** A query after a correction *)

Lemma query_clears_q G query mh minc maxc G' pv m nd :
  calculate_pvalues G query mh minc maxc = (G', Ok pv) ->
  node G' !! m = Some nd ->
  attr_q nd = None /\ attr_significant nd = None.
Proof.
  intros Hrun Hm.
  pose proof (calculate_pvalues_ok _ _ _ _ _ _ _ Hrun m) as H.
  destruct (node G !! m) as [nd0|]; [|destruct H; congruence].
  destruct H as (nd' & r & Hstep & Hnd' & _).
  assert (nd' = nd) as -> by congruence.
  pose proof (pvalue_node_outcome (list_to_set query)
    (Z.of_nat (size (list_to_set query : gset string))) mh minc maxc nd0) as Hout.
  rewrite Hstep in Hout. by inversion Hout.
Qed.

(** X19.  A query after a correction starts afresh: on the graph that
    [multiple_testing_correction] has left, whatever its method and its
    outcome, the call returns the map and leaves the nodes it would have
    without the correction, and no node keeps a [q] or a significance
    flag. *)
Theorem query_after_correction
    (fdrcorrection : list float -> float -> list bool * list float)
    G pvalues0 alpha method query mh minc maxc G1 pv :
  calculate_pvalues G query mh minc maxc = (G1, Ok pv) ->
  exists G2,
    calculate_pvalues
      (multiple_testing_correction fdrcorrection G pvalues0 alpha method).1
      query mh minc maxc = (G2, Ok pv) /\
    node G2 = node G1 /\
    forall m nd, node G2 !! m = Some nd ->
      attr_q nd = None /\ attr_significant nd = None.
Proof.
  intros Hrun.
  destruct (calculate_pvalues_congruent G
    (multiple_testing_correction fdrcorrection G pvalues0 alpha method).1
    query mh minc maxc G1 pv) as (G2 & Hrun2 & Hnodes); [|done|].
  { intros m.
    destruct (correction_keeps fdrcorrection G pvalues0 alpha method)
      as (_ & _ & _ & _ & Hk).
    specialize (Hk m).
    destruct (node G !! m) as [nd|],
      (node (multiple_testing_correction fdrcorrection G pvalues0 alpha
               method).1 !! m) as [nd'|]; simpl in *; try done.
    apply (inj Some) in Hk. f_equal.
    change (reset_query (erase_q nd') = reset_query (erase_q nd)).
    by rewrite Hk. }
  exists G2. do 2 (split; [done|]). intros m nd Hm.
  by apply (query_clears_q _ _ _ _ _ _ _ m nd Hrun2).
Qed.

Lemma query_after_correction_witness :
  let G := one_term_graph (term_node "bp" ["a"; "b"; "c"] 4) in
  exists G2,
    calculate_pvalues
      (multiple_testing_correction no_fdrcorrection G
         {["t" := Fin (3 # 100)]} default_alpha "bonferroni").1
      ["a"; "b"] 2 3 500 = (G2, Ok {["t" := Fin (0 # 1)]}) /\
    node G2 = node (calculate_pvalues G ["a"; "b"] 2 3 500).1 /\
    forall m nd, node G2 !! m = Some nd ->
      attr_q nd = None /\ attr_significant nd = None.
Proof.
  intros G.
  apply (query_after_correction no_fdrcorrection G).
  vm_compute. reflexivity.
Defined.

(** * The stages together *)

Lemma fdr_loop_returns items : forall G,
  (forall term, term ∈ items.*1 -> is_Some (node G !! term)) ->
  (fdr_loop items G).2 = Ok tt.
Proof.
  induction items as [|[t [q rej]] items IH]; intros G Hall; simpl; [done|].
  destruct (Hall t) as [nd ->]; [by left|].
  apply IH. intros term Hin. simpl.
  destruct (decide (term = t)) as [->|Hne].
  - rewrite lookup_insert_eq. by eexists.
  - rewrite lookup_insert_ne by done. apply Hall. by right.
Qed.

Lemma pvalues_are_nodes G query mh minc maxc G' pv term :
  calculate_pvalues G query mh minc maxc = (G', Ok pv) ->
  is_Some (pv !! term) -> is_Some (node G' !! term).
Proof.
  intros Hrun [p Hp].
  pose proof (calculate_pvalues_ok _ _ _ _ _ _ _ Hrun term) as H.
  destruct (node G !! term); [|destruct H; congruence].
  destruct H as (nd & r & _ & -> & _). by eexists.
Qed.

Lemma pvalues_are_p G query mh minc maxc G' pv term nd :
  calculate_pvalues G query mh minc maxc = (G', Ok pv) ->
  node G' !! term = Some nd -> attr_p nd = pv !! term.
Proof.
  intros Hrun Hnd.
  pose proof (calculate_pvalues_ok _ _ _ _ _ _ _ Hrun term) as H.
  destruct (node G !! term) as [nd0|]; [|destruct H; congruence].
  destruct H as (nd' & r & Hstep & Hnd' & ->).
  assert (nd' = nd) as -> by congruence.
  pose proof (pvalue_node_outcome (list_to_set query)
    (Z.of_nat (size (list_to_set query : gset string))) mh minc maxc nd0) as Hout.
  rewrite Hstep in Hout. by inversion Hout.
Qed.

Section Pipeline.

Variable fdrcorrection : list float -> float -> list bool * list float.

Lemma bonferroni_after_query G query mh minc maxc G1 pv alpha :
  calculate_pvalues G query mh minc maxc = (G1, Ok pv) ->
  (multiple_testing_correction fdrcorrection G1 pv alpha "bonferroni").2
  = Ok tt.
Proof.
  intros Hrun. unfold multiple_testing_correction.
  rewrite decide_True by done.
  apply (proj1 (bonferroni_loop_result _ _ (graph_update G1 _ alpha))).
  intros term [[k p] [-> Hin%elem_of_map_to_list]]%list_elem_of_fmap.
  apply (pvalues_are_nodes _ _ _ _ _ _ _ _ Hrun). by eexists.
Qed.

(** X20.  The correction of the map a query has returned, on the graph the
    query has left, never raises [KeyError]: under 'bonferroni' it always
    returns; under 'benjamini-hochberg' it returns when the map is not
    empty and raises [ValueError] when it is. *)
Theorem correction_after_query G query mh minc maxc G1 pv alpha :
  calculate_pvalues G query mh minc maxc = (G1, Ok pv) ->
  (multiple_testing_correction fdrcorrection G1 pv alpha "bonferroni").2
  = Ok tt /\
  (pv ≠ ∅ ->
   (multiple_testing_correction fdrcorrection G1 pv alpha
      "benjamini-hochberg").2 = Ok tt) /\
  (pv = ∅ ->
   exists msg,
     (multiple_testing_correction fdrcorrection G1 pv alpha
        "benjamini-hochberg").2 = Raise (ValueError msg)).
Proof.
  intros Hrun.
  assert (Hkeys : forall term,
    term ∈ (map_to_list pv).*1 -> is_Some (node G1 !! term)).
  { intros term [[k p] [-> Hin%elem_of_map_to_list]]%list_elem_of_fmap.
    apply (pvalues_are_nodes _ _ _ _ _ _ _ _ Hrun). by eexists. }
  unfold multiple_testing_correction. split; [|split].
  - rewrite decide_True by done.
    apply (proj1 (bonferroni_loop_result _ _ (graph_update G1 _ alpha))).
    exact Hkeys.
  - intros Hne. rewrite decide_False by done. rewrite decide_True by done.
    destruct (map_to_list pv) as [|item items] eqn:Hitems.
    { by apply map_to_list_empty_iff in Hitems. }
    destruct (fdrcorrection _ alpha) as [rejs qs].
    apply (fdr_loop_returns _ (graph_update G1 _ alpha)).
    intros term Hin%zip_fst_elem_of. by apply Hkeys.
  - intros ->. rewrite decide_False by done. rewrite decide_True by done.
    rewrite map_to_list_empty. by eexists.
Qed.

(** X21.  After a query and its 'bonferroni' correction a node carries a
    [q] exactly when it carries a [p], that is, exactly when the query
    retained it; and then [q = p * k] for the [k] retained terms. *)
Theorem corrected_iff_retained G query mh minc maxc G1 pv alpha G2 m nd :
  calculate_pvalues G query mh minc maxc = (G1, Ok pv) ->
  multiple_testing_correction fdrcorrection G1 pv alpha "bonferroni"
  = (G2, Ok tt) ->
  node G2 !! m = Some nd ->
  attr_p nd = pv !! m /\
  attr_q nd = (fun p => fmul_int p (Z.of_nat (size pv))) <$> attr_p nd /\
  (is_Some (attr_significant nd) <-> is_Some (attr_p nd)).
Proof.
  intros Hrun1 Hrun2 Hm.
  destruct (bonferroni_ok fdrcorrection G1 pv alpha G2 Hrun2) as (_ & _ & H).
  specialize (H m).
  destruct (pv !! m) as [p|] eqn:Hp.
  - destruct H as (nd1 & Hnd1 & Hnd2).
    assert (Hp1 : attr_p nd1 = Some p).
    { rewrite (pvalues_are_p _ _ _ _ _ _ _ _ _ Hrun1 Hnd1). done. }
    rewrite Hm in Hnd2. injection Hnd2 as ->. simpl. rewrite Hp1. simpl.
    split; [done|]. split; [done|]. split; by eexists.
  - rewrite Hm in H. symmetry in H.
    pose proof (pvalues_are_p _ _ _ _ _ _ _ _ _ Hrun1 H) as Hp1.
    destruct (query_clears_q _ _ _ _ _ _ _ m nd Hrun1 H) as [Hq Hs].
    rewrite Hp1, Hp, Hq, Hs. simpl. split; [done|]. split; [done|].
    split; by intros [? ?].
Qed.

End Pipeline.

Lemma correction_after_query_witness :
  let G := one_term_graph (term_node "bp" ["a"; "b"; "c"] 4) in
  let G1 := (calculate_pvalues G ["a"; "b"] 2 3 500).1 in
  let pv : gmap string float := {["t" := Fin (0 # 1)]} in
  (multiple_testing_correction no_fdrcorrection G1 pv default_alpha
     "bonferroni").2 = Ok tt /\
  (pv ≠ ∅ ->
   (multiple_testing_correction no_fdrcorrection G1 pv default_alpha
      "benjamini-hochberg").2 = Ok tt) /\
  (pv = ∅ ->
   exists msg,
     (multiple_testing_correction no_fdrcorrection G1 pv default_alpha
        "benjamini-hochberg").2 = Raise (ValueError msg)).
Proof.
  intros G G1 pv.
  apply (correction_after_query no_fdrcorrection G ["a"; "b"] 2 3 500).
  vm_compute. reflexivity.
Defined.

Lemma corrected_iff_retained_witness :
  let nd := mkNode (Some "bp") (Some {["a"; "b"; "c"]}) (Some 4)
              (Some {["a"; "b"]}) (Some 3) (Some 2) (Some {["a"; "b"]})
              (Some 2) (Some (Fin (0 # 1))) (Some (Fin (0 # 1))) (Some true) in
  let pv : gmap string float := {["t" := Fin (0 # 1)]} in
  attr_p nd = pv !! "t" /\
  attr_q nd = (fun p => fmul_int p (Z.of_nat (size pv))) <$> attr_p nd /\
  (is_Some (attr_significant nd) <-> is_Some (attr_p nd)).
Proof.
  intros nd pv.
  pose (G := one_term_graph (term_node "bp" ["a"; "b"; "c"] 4)).
  assert (Hrun1 : calculate_pvalues G ["a"; "b"] 2 3 500
                  = ((calculate_pvalues G ["a"; "b"] 2 3 500).1, Ok pv))
    by (vm_compute; reflexivity).
  assert (Hrun2 :
    multiple_testing_correction no_fdrcorrection
      (calculate_pvalues G ["a"; "b"] 2 3 500).1 pv default_alpha "bonferroni"
    = ((multiple_testing_correction no_fdrcorrection
          (calculate_pvalues G ["a"; "b"] 2 3 500).1 pv default_alpha
          "bonferroni").1, Ok tt)) by (vm_compute; reflexivity).
  assert (Hm : node (multiple_testing_correction no_fdrcorrection
                       (calculate_pvalues G ["a"; "b"] 2 3 500).1 pv
                       default_alpha "bonferroni").1 !! "t" = Some nd)
    by (vm_compute; reflexivity).
  exact (corrected_iff_retained no_fdrcorrection G ["a"; "b"] 2 3 500 _ pv
           default_alpha _ "t" nd Hrun1 Hrun2 Hm).
Defined.

(** * analyze *)

Section AnalyzeProperties.

Variables Frame Index : Type.
Variable fdrcorrection : list float -> float -> list bool * list float.
Variable to_frame : Graph -> Options -> Frame.
Variable int_of_str : string -> result Z.
Variable top_by_q : Frame -> Z -> Index.
Variable to_graphviz : Graph -> Index -> Options -> result unit.

(** X22.  With the default method, 'benjamini-hochberg', [analyze] raises
    [ValueError] whenever no term has [min_hit_size] hits, on every graph:
    the query leaves an empty p-value map and the correction cannot unpack
    it.  An empty query with the default [min_hit_size] is the plain case.
    The exception comes before any export. *)
Theorem analyze_no_candidates G query kwargs :
  opt_method kwargs = None \/ opt_method kwargs = Some "benjamini-hochberg" ->
  (query = [] /\ 1 <= default default_min_hit_size (opt_min_hit_size kwargs) \/
   forall i nd, node G !! i = Some nd ->
     Z.of_nat (size ((list_to_set query : gset string)
                       ∩ default ∅ (attr_background nd)))
     < default default_min_hit_size (opt_min_hit_size kwargs)) ->
  exists G' msg,
    analyze Frame Index fdrcorrection to_frame int_of_str top_by_q
      to_graphviz G query kwargs
    = (G', inl (Raised (ValueError msg))).
Proof.
  intros Hmethod Hnone.
  destruct (pvalues_no_candidates G query
    (default default_min_hit_size (opt_min_hit_size kwargs))
    (default default_min_category_size (opt_min_category_size kwargs))
    (default default_max_category_size (opt_max_category_size kwargs)))
    as [G1 Hrun].
  { destruct Hnone as [[-> Hmh]|Hall]; [|done].
    intros i nd _. simpl. rewrite intersection_empty_l_L, size_empty. lia. }
  unfold analyze. rewrite Hrun.
  assert (Hm : default default_method (opt_method kwargs)
               = "benjamini-hochberg") by (by destruct Hmethod as [-> | ->]).
  rewrite Hm. unfold multiple_testing_correction.
  rewrite decide_False by done. rewrite decide_True by done.
  rewrite map_to_list_empty. by eexists _, _.
Qed.

(** X23.  Under 'bonferroni', on a graph whose every node carries [M] (any
    graph [set_background] has reset), the statistics of [analyze] always
    complete.  Without a 'gvfile' option the call returns the frame of the
    corrected graph; with one and a 'show' option that does not start with
    'top' it raises [NotImplementedError(show)], after the graph has been
    written. *)
Theorem analyze_bonferroni G query kwargs :
  opt_method kwargs = Some "bonferroni" ->
  (forall i nd, node G !! i = Some nd -> is_Some (attr_M nd)) ->
  exists G2,
    mtc_method G2 = Some "bonferroni" /\
    (opt_gvfile kwargs = None ->
     analyze Frame Index fdrcorrection to_frame int_of_str top_by_q
       to_graphviz G query kwargs = (G2, inr (to_frame G2 kwargs))) /\
    (is_Some (opt_gvfile kwargs) ->
     String.prefix "top" (default "top20" (opt_show kwargs)) = false ->
     analyze Frame Index fdrcorrection to_frame int_of_str top_by_q
       to_graphviz G query kwargs
     = (G2, inl (NotImplementedError (default "top20" (opt_show kwargs))))).
Proof.
  intros Hmethod HM.
  destruct (calculate_pvalues_total G query
    (default default_min_hit_size (opt_min_hit_size kwargs))
    (default default_min_category_size (opt_min_category_size kwargs))
    (default default_max_category_size (opt_max_category_size kwargs)) HM)
    as (G1 & pv & Hrun).
  pose proof (bonferroni_after_query fdrcorrection _ _ _ _ _ _ _
    (default default_alpha (opt_alpha kwargs)) Hrun) as Hcorr.
  destruct (correction_keeps fdrcorrection G1 pv
              (default default_alpha (opt_alpha kwargs)) "bonferroni")
    as (_ & _ & Hmeta & _).
  unfold analyze. rewrite Hrun, Hmethod. simpl.
  destruct (multiple_testing_correction fdrcorrection G1 pv
              (default default_alpha (opt_alpha kwargs)) "bonferroni")
    as [G2 [e|[]]]; simpl in *; [done|].
  exists G2. split; [done|]. split.
  - by intros ->.
  - intros [f ->] Hshow. by rewrite Hshow.
Qed.

End AnalyzeProperties.

Lemma analyze_no_candidates_witness :
  exists G' msg,
    analyze unit unit no_fdrcorrection (fun _ _ => tt)
      (fun _ => inr 20) (fun _ _ => tt) (fun _ _ _ => inr tt)
      diamond_graph [] no_options
    = (G', inl (Raised (ValueError msg))).
Proof.
  apply (analyze_no_candidates unit unit no_fdrcorrection (fun _ _ => tt)
           (fun _ => inr 20) (fun _ _ => tt) (fun _ _ _ => inr tt)
           diamond_graph [] no_options).
  - by left.
  - left. split; [reflexivity|]. vm_compute. discriminate.
Defined.

Lemma analyze_bonferroni_witness :
  let kwargs := mkOptions None None None None (Some "bonferroni")
                  (Some "all") (Some "out.gv") in
  exists G2,
    mtc_method G2 = Some "bonferroni" /\
    (opt_gvfile kwargs = None ->
     analyze unit unit no_fdrcorrection (fun _ _ => tt)
       (fun _ => inr 20) (fun _ _ => tt) (fun _ _ _ => inr tt)
       (one_term_graph (term_node "bp" ["a"; "b"; "c"] 4)) ["a"; "b"] kwargs
     = (G2, inr tt)) /\
    (is_Some (opt_gvfile kwargs) ->
     String.prefix "top" (default "top20" (opt_show kwargs)) = false ->
     analyze unit unit no_fdrcorrection (fun _ _ => tt)
       (fun _ => inr 20) (fun _ _ => tt) (fun _ _ _ => inr tt)
       (one_term_graph (term_node "bp" ["a"; "b"; "c"] 4)) ["a"; "b"] kwargs
     = (G2, inl (NotImplementedError (default "top20" (opt_show kwargs))))).
Proof.
  intros kwargs.
  apply (analyze_bonferroni unit unit no_fdrcorrection (fun _ _ => tt)
           (fun _ => inr 20) (fun _ _ => tt) (fun _ _ _ => inr tt)
           (one_term_graph (term_node "bp" ["a"; "b"; "c"] 4)) ["a"; "b"]
           kwargs).
  - reflexivity.
  - intros i nd. unfold one_term_graph. simpl.
    intros [_ <-]%lookup_singleton_Some. by eexists.
Defined.
